(** * The itinerary worker: request router and generation pipeline

    A shallow embedding of [src/index.js]: the JavaScript values the worker
    handles, the retry loop around the model call ([callOpenAI]), the
    validation schemas, the generation pipeline ([processItinerary]) over a
    document store, and the request router ([fetch]). *)

From Stdlib Require Import QArith ZArith Ascii String DecimalString.
From stdpp Require Import gmap strings list fin_maps.

Open Scope string_scope.
Open Scope list_scope.

(** ** JavaScript values *)

(** A JavaScript number: the rational value of a finite double, the two
    infinities, or NaN. *)
Inductive number :=
| Finite (q : Q)
| Infinity (negative : bool)
| NaN.

Definition of_Z (z : Z) : number := Finite (inject_Z z).

(** [a < b] on numbers; every comparison with NaN is false. *)
Definition js_lt (a b : number) : bool :=
  match a, b with
  | NaN, _ | _, NaN => false
  | Finite p, Finite q => negb (Qle_bool q p)
  | Finite _, Infinity negative => negb negative
  | Infinity negative, Finite _ => negative
  | Infinity n1, Infinity n2 => n1 && negb n2
  end.

(** [a > b] is [b < a]. *)
Definition js_gt (a b : number) : bool := js_lt b a.

(** The values the worker handles: what a JSON text denotes, [undefined],
    and the two objects of the store's client library that end up in job
    records: the [FieldValue.serverTimestamp()] sentinel and the timestamp
    the store puts in its place when a write is applied. *)
#[warnings="-register-all"]
Inductive value :=
| VUndefined
| VNull
| VBool (b : bool)
| VNum (n : number)
| VStr (s : string)
| VArr (items : list value)
| VObj (members : list (string * value))
| VServerTimestamp
| VTimestamp (t : Z).

(** Induction on values, with the hypothesis for the items of an array. *)
Fixpoint value_induction (P : value → Prop)
    (Hundefined : P VUndefined) (Hnull : P VNull)
    (Hbool : ∀ b, P (VBool b)) (Hnum : ∀ n, P (VNum n))
    (Hstr : ∀ s, P (VStr s))
    (Harr : ∀ items, Forall P items → P (VArr items))
    (Hobj : ∀ members, P (VObj members))
    (Hsentinel : P VServerTimestamp) (Htime : ∀ t, P (VTimestamp t))
    (v : value) : P v :=
  match v with
  | VUndefined => Hundefined
  | VNull => Hnull
  | VBool b => Hbool b
  | VNum n => Hnum n
  | VStr s => Hstr s
  | VArr items =>
      Harr items
        ((fix each (l : list value) : Forall P l :=
            match l with
            | [] => @List.Forall_nil value P
            | x :: rest =>
                @List.Forall_cons value P x rest
                  (value_induction P Hundefined Hnull Hbool Hnum Hstr Harr Hobj
                     Hsentinel Htime x)
                  (each rest)
            end) items)
  | VObj members => Hobj members
  | VServerTimestamp => Hsentinel
  | VTimestamp t => Htime t
  end.

(** The [typeof] operator. *)
Definition typeof (v : value) : string :=
  match v with
  | VUndefined => "undefined"
  | VNull | VArr _ | VObj _ | VServerTimestamp | VTimestamp _ => "object"
  | VBool _ => "boolean"
  | VNum _ => "number"
  | VStr _ => "string"
  end.

(** Truthiness, as tested by [!x] and [||]. *)
Definition truthy (v : value) : bool :=
  match v with
  | VUndefined | VNull => false
  | VBool b => b
  | VNum (Finite q) => negb (Qeq_bool q 0)
  | VNum (Infinity _) => true
  | VNum NaN => false
  | VStr s => negb (String.eqb s "")
  | VArr _ | VObj _ | VServerTimestamp | VTimestamp _ => true
  end.

(** Own member of an object; [undefined] when absent. *)
Fixpoint member (k : string) (members : list (string * value)) : value :=
  match members with
  | [] => VUndefined
  | (k', v) :: rest => if String.eqb k k' then v else member k rest
  end.

Fixpoint has_member (k : string) (members : list (string * value)) : bool :=
  match members with
  | [] => false
  | (k', _) :: rest => String.eqb k k' || has_member k rest
  end.

(** ** Strings

    A string holds the UTF-8 bytes of the JavaScript string, the way the
    string literals of this file are read.  JavaScript counts a string in
    UTF-16 code units: a character of one to three bytes is one unit, a
    character of four bytes is two, a surrogate pair. *)

(** The code units of the character that starts with the byte [c]: none for
    a byte that continues a character ([0x80] to [0xBF]), two for the first
    byte of a character of four ([0xF0] and above), else one. *)
Definition units_of (c : ascii) : nat :=
  let n := N_of_ascii c in
  if (n <? 128)%N then 1%nat
  else if (n <? 192)%N then 0%nat
  else if (n <? 240)%N then 1%nat
  else 2%nat.

(** [s.length] *)
Fixpoint js_length (s : string) : nat :=
  match s with
  | "" => 0%nat
  | String c rest => (units_of c + js_length rest)%nat
  end.

(** The first unit of the surrogate pair of a character of four bytes, of
    which [c0] is the first and [rest] starts with the others: the bits
    [110110 wwww zzzz yy] of a character [11110uuu 10uuzzzz 10yyyyyy
    10xxxxxx], where [wwww] is [uuuuu - 1]; a lone surrogate is written in
    three bytes, as a unit of its size is. *)
Definition high_surrogate (c0 : ascii) (rest : string) : string :=
  match rest with
  | String c1 (String c2 _) =>
      let uuuuu := (N_of_ascii c0 mod 8 * 4 + N_of_ascii c1 / 16 mod 4)%N in
      let zzzz := (N_of_ascii c1 mod 16)%N in
      let yy := (N_of_ascii c2 / 16 mod 4)%N in
      String "237"%char
        (String (ascii_of_N (160 + (uuuuu - 1) mod 16))
           (String (ascii_of_N (128 + (zzzz * 4 + yy))) ""))
  | _ => ""
  end.

(** [s.substring(0, n)]: the first [n] code units of [s], or all of [s] when
    it has no more; a surrogate pair of which only the first unit fits is
    cut in two. *)
Fixpoint substring_0 (n : nat) (s : string) : string :=
  match s with
  | "" => ""
  | String c rest =>
      match units_of c, n with
      | 0%nat, _ => String c (substring_0 n rest)
      | _, 0%nat => ""
      | 1%nat, S n' => String c (substring_0 n' rest)
      | _, 1%nat => high_surrogate c rest
      | _, S (S n') => String c (substring_0 n' rest)
      end
  end.

(** ** Exceptions *)

(** A thrown error; the worker only ever reads its [message]. *)
Record Error := mkError { message : string }.

Inductive outcome (A : Type) :=
| Ok (a : A)
| Throw (e : Error).
Arguments Ok {A} a.
Arguments Throw {A} e.

#[global] Instance outcome_ret : MRet outcome := @Ok.
#[global] Instance outcome_bind : MBind outcome := λ A B k m,
  match m with
  | Ok a => k a
  | Throw e => Throw e
  end.

(** The [itineraries] collection of the document store: documents by
    identifier, each a map from field names to values. *)
Abbreviation Store := (gmap string (gmap string value)).

(** ** The host: JavaScript engine and libraries

    What the engine and the imported libraries compute, and the errors they
    raise, is not part of the worker's source; the embedding is parametric
    in it. *)
Class Host := {
  (** [String(n)] for a number *)
  Number_toString : number -> string;
  (** [JSON.parse] *)
  JSON_parse : string -> outcome value;
  (** the TypeError for reading member [k] of [null] or [undefined] *)
  TypeError_read : value -> string -> Error;
  (** the TypeError for calling a member that is not a function *)
  TypeError_not_a_function : string -> Error;
  (** the TypeError for an object that has no primitive value *)
  TypeError_to_primitive : Error;
  (** whether [z.number()] also refuses the infinities (it does from zod 4 on) *)
  zod_number_finite : bool;
  (** the ZodError raised when [ItinerarySchema.parse] refuses its input *)
  ZodError : value -> Error;
  (** the error of the store for updating a document that does not exist *)
  NOT_FOUND : string -> Error
}.

Section Worker.
Context `{host : Host}.

(** [v.k] for the member names the source reads ([destination],
    [durationDays], [error], [message], [choices], [content], [itinerary]):
    none of them is a built-in member of a string, number, boolean or
    array. *)
Definition get (v : value) (k : string) : outcome value :=
  match v with
  | VUndefined | VNull => Throw (TypeError_read v k)
  | VObj members => Ok (member k members)
  | _ => Ok VUndefined
  end.

(** [v?.k]: [undefined] where [v.k] would throw. *)
Definition get_optional (v : value) (k : string) : value :=
  match v with
  | VObj members => member k members
  | _ => VUndefined
  end.

(** [v[0]] *)
Definition get_first (v : value) : outcome value :=
  match v with
  | VUndefined | VNull => Throw (TypeError_read v "0")
  | VArr items => Ok (hd VUndefined items)
  | VStr (String c rest) => Ok (VStr (substring_0 1 (String c rest)))
  | VObj members => Ok (member "0" members)
  | _ => Ok VUndefined
  end.

(** The string a value turns into inside a template literal or as the
    argument of [JSON.parse].  An array joins its elements with commas
    ([null] and [undefined] elements giving the empty string); an object
    parsed from JSON prints as [[object Object]], unless it has a member
    [toString] of its own, which is not callable. *)
Fixpoint ToString (v : value) : outcome string :=
  match v with
  | VUndefined => Ok "undefined"
  | VNull => Ok "null"
  | VBool true => Ok "true"
  | VBool false => Ok "false"
  | VNum n => Ok (Number_toString n)
  | VStr s => Ok s
  | VArr items =>
      let element (x : value) : outcome string :=
        match x with
        | VUndefined | VNull => Ok ""
        | _ => ToString x
        end in
      (fix join (l : list value) : outcome string :=
         match l with
         | [] => Ok ""
         | [x] => element x
         | x :: rest =>
             s ← element x;
             r ← join rest;
             Ok (s +:+ "," +:+ r)
         end) items
  | VObj members =>
      if has_member "toString" members then Throw TypeError_to_primitive
      else Ok "[object Object]"
  | VServerTimestamp | VTimestamp _ => Ok "[object Object]"
  end.

(** [content.substring(0, 200)] *)
Definition substring_0_200 (content : value) : outcome string :=
  match content with
  | VStr s => Ok (substring_0 200 s)
  | VUndefined | VNull => Throw (TypeError_read content "substring")
  | _ => Throw (TypeError_not_a_function "content.substring")
  end.

(** ** The model call with retries *)

(** What [fetch(OPENAI_API_URL, ...)] resolves to: [response.ok],
    [response.status] and the outcome of [response.json()]. *)
Record ApiResponse := {
  ok : bool;
  http_status : Z;
  json : outcome value
}.

(** The [try] block of one iteration of [callOpenAI], given what the call to
    the service did: the value returned, or the error thrown. *)
Definition attempt_body (answer : outcome ApiResponse) : outcome value :=
  response ← answer;
  if negb (ok response) then
    errorData ← json response;
    error ← get errorData "error";
    let detail := get_optional error "message" in
    text ← ToString (if truthy detail then detail else VStr "Unknown error");
    Throw (mkError ("OpenAI API error: "
                    +:+ Number_toString (of_Z (http_status response))
                    +:+ " - " +:+ text))
  else
    data ← json response;
    choices ← get data "choices";
    first ← get_first choices;
    let content := get_optional (get_optional first "message") "content" in
    if negb (truthy content) then
      Throw (mkError "No content received from OpenAI")
    else
      match text ← ToString content; JSON_parse text with
      | Ok jsonResponse => Ok jsonResponse
      | Throw parseError =>
          shown ← substring_0_200 content;
          Throw (mkError ("Invalid JSON response from OpenAI: " +:+ shown +:+ "..."))
      end.

(** What [callOpenAI] does besides computing its result. *)
Inductive Event :=
| Called (attempt : nat)      (* the request of that attempt was sent *)
| Slept (milliseconds : Z).   (* the [setTimeout] delay was awaited *)

(** The [for] loop of [callOpenAI] from iteration [attempt] on, with
    [remaining] iterations to go before [attempt <= retries] fails; the
    service answers the request of each attempt.  When the loop runs out the
    function returns [undefined]. *)
Fixpoint retry_loop (service : nat -> outcome ApiResponse)
    (retries attempt remaining : nat) : list Event * outcome value :=
  match remaining with
  | O => ([], Ok VUndefined)
  | S remaining' =>
      match attempt_body (service attempt) with
      | Ok jsonResponse => ([Called attempt], Ok jsonResponse)
      | Throw error =>
          if Nat.eqb attempt retries then ([Called attempt], Throw error)
          else
            let delay := (2 ^ Z.of_nat attempt * 1000)%Z in
            let '(events, result) :=
              retry_loop service retries (S attempt) remaining' in
            (Called attempt :: Slept delay :: events, result)
      end
  end.

(** [callOpenAI(prompt, env, retries)]; [service prompt] answers the
    requests carrying that prompt. *)
Definition callOpenAI (service : string -> nat -> outcome ApiResponse)
    (prompt : string) (retries : nat) : list Event * outcome value :=
  retry_loop (service prompt) retries 1 retries.

(** The default of the [retries] parameter, which no caller overrides. *)
Definition default_retries : nat := 3.

(** ** Validation schemas *)

(** A zod schema, as the function its [parse] computes: the parsed value, or
    [None] where [parse] throws a ZodError. *)
Definition schema := value -> option value.

Definition z_string : schema := λ v,
  match v with VStr _ => Some v | _ => None end.

(** [z.number()] refuses NaN and, depending on the version of the library,
    the infinities. *)
Definition z_number : schema := λ v,
  match v with
  | VNum (Finite _) => Some v
  | VNum (Infinity _) => if zod_number_finite then None else Some v
  | _ => None
  end.

Definition z_any : schema := λ v, Some v.

Definition z_nullable (inner : schema) : schema := λ v,
  match v with VNull => Some VNull | _ => inner v end.

Definition z_enum (options : list string) : schema := λ v,
  match v with
  | VStr s => if bool_decide (s ∈ options) then Some v else None
  | _ => None
  end.

Definition z_array (element : schema) : schema := λ v,
  match v with
  | VArr items => VArr <$> mapM element items
  | _ => None
  end.

(** [z.object(shape)]: every key of the shape is parsed, an absent member as
    [undefined]; members that are not in the shape are dropped.  The shapes
    of this file all have a member that must be a string or a number, which
    the two objects of the store's library do not have. *)
Definition z_object (shape : list (string * schema)) : schema := λ v,
  match v with
  | VObj members =>
      VObj <$> mapM (λ entry : string * schema,
                       pair (entry.1) <$> entry.2 (member entry.1 members)) shape
  | _ => None
  end.

Definition ActivitySchema : schema :=
  z_object [("time", z_string); ("description", z_string); ("location", z_string)].

Definition DaySchema : schema :=
  z_object [("day", z_number); ("theme", z_string);
            ("activities", z_array ActivitySchema)].

Definition ItinerarySchema : schema :=
  z_object [("status", z_enum ["completed"; "processing"; "failed"]);
            ("destination", z_string);
            ("durationDays", z_number);
            ("createdAt", z_any);
            ("completedAt", z_nullable z_any);
            ("itinerary", z_array DaySchema);
            ("error", z_nullable z_string)].

(** [ItinerarySchema.parse(data)] *)
Definition ItinerarySchema_parse (data : value) : outcome value :=
  match ItinerarySchema data with
  | Some validatedData => Ok validatedData
  | None => Throw (ZodError data)
  end.

(** ** The document store

    The store is used as a map from identifiers to records, each call
    reading or writing one record at once. *)

(** What the store does with one call: whether the call fails (and with
    which error), and the server's time when it is applied. *)
Record StoreCall := {
  fault : option Error;
  server_time : Z
}.

(** The fields a write stores: a server-timestamp sentinel becomes the
    server's time. *)
Definition stored (now : Z) (v : value) : value :=
  match v with VServerTimestamp => VTimestamp now | _ => v end.

Definition fields_of (call : StoreCall) (data : list (string * value))
    : gmap string value :=
  stored (server_time call) <$> list_to_map data.

(** [doc(id).set(data)]: the document becomes [data]. *)
Definition doc_set (db : Store) (id : string) (data : list (string * value))
    (call : StoreCall) : outcome Store :=
  match fault call with
  | Some e => Throw e
  | None => Ok (<[id := fields_of call data]> db)
  end.

(** [doc(id).update(data)]: the fields of [data] replace those of the same
    name, the others stay; the document must exist. *)
Definition doc_update (db : Store) (id : string) (data : list (string * value))
    (call : StoreCall) : outcome Store :=
  match fault call with
  | Some e => Throw e
  | None =>
      match db !! id with
      | None => Throw (NOT_FOUND id)
      | Some old => Ok (<[id := fields_of call data ∪ old]> db)
      end
  end.

(** [doc(id).get()] *)
Definition doc_get (db : Store) (id : string) (call : StoreCall)
    : outcome (option (gmap string value)) :=
  match fault call with
  | Some e => Throw e
  | None => Ok (db !! id)
  end.

(** ** The generation pipeline *)

Definition quote : string := String "034"%char "".

(** [createPrompt(destination, durationDays)] *)
Definition createPrompt (destination durationDays : value) : outcome string :=
  days ← ToString durationDays;
  place ← ToString destination;
  Ok ("You are a professional travel planner. Create a detailed " +:+ days
  +:+ "-day itinerary for " +:+ place +:+ ".

Please return ONLY a valid JSON object with the following structure (no additional text or formatting):

{
  " +:+ quote +:+ "itinerary" +:+ quote +:+ ": [
    {
      " +:+ quote +:+ "day" +:+ quote +:+ ": 1,
      " +:+ quote +:+ "theme" +:+ quote +:+ ": " +:+ quote
  +:+ "Theme for the day (e.g., 'Historical Paris', 'Modern Tokyo')" +:+ quote +:+ ",
      " +:+ quote +:+ "activities" +:+ quote +:+ ": [
        {
          " +:+ quote +:+ "time" +:+ quote +:+ ": " +:+ quote +:+ "Morning" +:+ quote +:+ ",
          " +:+ quote +:+ "description" +:+ quote +:+ ": " +:+ quote
  +:+ "Detailed activity description with practical tips" +:+ quote +:+ ",
          " +:+ quote +:+ "location" +:+ quote +:+ ": " +:+ quote
  +:+ "Specific location name" +:+ quote +:+ "
        },
        {
          " +:+ quote +:+ "time" +:+ quote +:+ ": " +:+ quote +:+ "Afternoon" +:+ quote +:+ ", 
          " +:+ quote +:+ "description" +:+ quote +:+ ": " +:+ quote
  +:+ "Detailed activity description with practical tips" +:+ quote +:+ ",
          " +:+ quote +:+ "location" +:+ quote +:+ ": " +:+ quote
  +:+ "Specific location name" +:+ quote +:+ "
        },
        {
          " +:+ quote +:+ "time" +:+ quote +:+ ": " +:+ quote +:+ "Evening" +:+ quote +:+ ",
          " +:+ quote +:+ "description" +:+ quote +:+ ": " +:+ quote
  +:+ "Detailed activity description with practical tips" +:+ quote +:+ ", 
          " +:+ quote +:+ "location" +:+ quote +:+ ": " +:+ quote
  +:+ "Specific location name" +:+ quote +:+ "
        }
      ]
    }
  ]
}

Requirements:
- Include 3 activities per day (Morning, Afternoon, Evening)
- Provide specific, practical descriptions with insider tips
- Include exact location names
- Make activities realistic for the time of day
- Consider local culture and must-see attractions
- Ensure activities flow logically throughout the day
- Include practical tips like " +:+ quote +:+ "pre-book tickets" +:+ quote
  +:+ " or " +:+ quote +:+ "best time to visit" +:+ quote +:+ "

Return ONLY the JSON object, no other text.").

(** What the world does during one run of the pipeline: whether the store
    client can be set up from the configured credential, how the store
    handles each of the three writes the run may issue, and how the model
    service answers. *)
Record PipelineWorld := {
  pipeline_firestore : outcome unit;
  processing_call : StoreCall;
  openai : string -> nat -> outcome ApiResponse;
  completed_call : StoreCall;
  failed_call : StoreCall
}.

(** The fields of the first write of the pipeline. *)
Definition processing_fields : list (string * value) :=
  [("status", VStr "processing"); ("updatedAt", VServerTimestamp)].

(** The object literal [itineraryData]. *)
Definition itineraryData (destination durationDays itinerary : value) : value :=
  VObj [("status", VStr "completed");
        ("destination", destination);
        ("durationDays", durationDays);
        ("createdAt", VServerTimestamp);
        ("completedAt", VServerTimestamp);
        ("itinerary", itinerary);
        ("error", VNull)].

(** The fields of the write in the [catch] block. *)
Definition failed_fields (error : Error) : list (string * value) :=
  [("status", VStr "failed");
   ("completedAt", VServerTimestamp);
   ("error", VStr (message error))].

Definition members_of (v : value) : list (string * value) :=
  match v with VObj members => members | _ => [] end.

(** From [createPrompt] to [ItinerarySchema.parse]: the part of the [try]
    block between the two writes, with the events of the model call. *)
Definition generate (w : PipelineWorld) (destination durationDays : value)
    : list Event * outcome value :=
  match createPrompt destination durationDays with
  | Throw error => ([], Throw error)
  | Ok prompt =>
      let '(events, answer) := callOpenAI (openai w) prompt default_retries in
      (events,
       aiResponse ← answer;
       itinerary ← get aiResponse "itinerary";
       ItinerarySchema_parse (itineraryData destination durationDays itinerary))
  end.

(** The [catch] block of [processItinerary]; when its write fails too, the
    promise of the pipeline is rejected. *)
Definition catch_block (w : PipelineWorld) (jobId : string) (error : Error)
    (db : Store) : Store * outcome unit :=
  match doc_update db jobId (failed_fields error) (failed_call w) with
  | Ok db' => (db', Ok ())
  | Throw e => (db, Throw e)
  end.

(** [processItinerary(jobId, destination, durationDays, env)] on the store
    [db]: the store it leaves, the events of the model call, and whether the
    promise resolves. *)
Definition processItinerary (w : PipelineWorld) (jobId : string)
    (destination durationDays : value) (db : Store)
    : Store * list Event * outcome unit :=
  match pipeline_firestore w with
  | Throw e => (db, [], Throw e)
  | Ok _ =>
      match doc_update db jobId processing_fields (processing_call w) with
      | Throw error =>
          let '(db', settled) := catch_block w jobId error db in
          (db', [], settled)
      | Ok db1 =>
          let '(events, answer) := generate w destination durationDays in
          match answer with
          | Throw error =>
              let '(db', settled) := catch_block w jobId error db1 in
              (db', events, settled)
          | Ok validatedData =>
              match doc_update db1 jobId (members_of validatedData)
                      (completed_call w) with
              | Ok db2 => (db2, events, Ok ())
              | Throw error =>
                  let '(db', settled) := catch_block w jobId error db1 in
                  (db', events, settled)
              end
          end
      end
  end.

(** ** The request router *)

(** A request: its method, the path of its URL, and what [request.json()]
    gives. *)
Record Request := {
  method : string;
  pathname : string;
  request_json : outcome value
}.

(** The body of a response: none, or the JSON text of a value or of a
    document read from the store. *)
Inductive Body :=
| no_body
| json_value (v : value)
| json_document (data : gmap string value).

Record Response := {
  status : Z;
  headers : list (string * string);
  body : Body
}.

(** What the world does during one request: whether the store client can be
    set up, how the store handles the one call the request may issue, and
    what [Date.now()] and [Math.random().toString(36)] give. *)
Record RouterWorld := {
  router_firestore : outcome unit;
  store_call : StoreCall;
  Date_now : Z;
  Math_random_36 : string
}.

(** A run of the pipeline handed to [ctx.waitUntil]. *)
Record Job := {
  job_id : string;
  job_destination : value;
  job_durationDays : value
}.

Definition corsHeaders : list (string * string) :=
  [("Access-Control-Allow-Origin", "*");
   ("Access-Control-Allow-Methods", "GET, POST, OPTIONS");
   ("Access-Control-Allow-Headers", "Content-Type")].

(** [new Response(JSON.stringify(b), { status, headers })] *)
Definition json_response (code : Z) (b : Body) : Response :=
  {| status := code;
     headers := ("Content-Type", "application/json") :: corsHeaders;
     body := b |}.

Definition error_response (code : Z) (text : string) : Response :=
  json_response code (json_value (VObj [("error", VStr text)])).

(** [generateJobId()] *)
Definition generateJobId (w : RouterWorld) : string :=
  "job_" +:+ Number_toString (of_Z (Date_now w)) +:+ "_"
  +:+ String.substring 2 9 (Math_random_36 w).

(** The number compared in [body.durationDays < 1]; the operand is a number
    there, [typeof] having been tested first. *)
Definition as_number (v : value) : number :=
  match v with VNum n => n | _ => NaN end.

(** The record [POST /generate] stores. *)
Definition initial_fields (destination durationDays : value)
    : list (string * value) :=
  [("status", VStr "processing");
   ("destination", destination);
   ("durationDays", durationDays);
   ("createdAt", VServerTimestamp);
   ("completedAt", VNull);
   ("itinerary", VArr []);
   ("error", VNull)].

(** The handler of [POST /generate]: the response, the store, and the
    pipeline run it schedules. *)
Definition handle_generate (request : Request) (w : RouterWorld) (db : Store)
    : outcome (Response * Store * option Job) :=
  body ← request_json request;
  destination ← get body "destination";
  if negb (truthy destination) then
    Ok (error_response 400 "Missing required fields: destination and durationDays",
        db, None)
  else
    durationDays ← get body "durationDays";
    if negb (truthy durationDays) then
      Ok (error_response 400 "Missing required fields: destination and durationDays",
          db, None)
    else if negb (String.eqb (typeof durationDays) "number")
            || js_lt (as_number durationDays) (of_Z 1)
            || js_gt (as_number durationDays) (of_Z 30) then
      Ok (error_response 400 "durationDays must be a number between 1 and 30",
          db, None)
    else
      let jobId := generateJobId w in
      _ ← router_firestore w;
      db' ← doc_set db jobId (initial_fields destination durationDays)
              (store_call w);
      Ok (json_response 202
            (json_value (VObj [("jobId", VStr jobId);
                               ("message", VStr "Itinerary generation started")])),
          db',
          Some {| job_id := jobId;
                  job_destination := destination;
                  job_durationDays := durationDays |}).

(** [pathname.split('/')] *)
Fixpoint split_slash (s : string) : list string :=
  match s with
  | "" => [""]
  | String c rest =>
      if Ascii.eqb c "/" then "" :: split_slash rest
      else match split_slash rest with
           | piece :: pieces => String c piece :: pieces
           | [] => [String c ""]
           end
  end.

(** The handler of [GET /status/...]; a failure inside its own [try] block
    is answered there. *)
Definition handle_status (request : Request) (w : RouterWorld) (db : Store)
    : Response :=
  match split_slash (pathname request) !! 2%nat with
  | None | Some "" => error_response 400 "Job ID is required"
  | Some jobId =>
      match _ ← router_firestore w; doc_get db jobId (store_call w) with
      | Throw error => error_response 500 "Failed to fetch job status"
      | Ok None => error_response 404 "Job not found"
      | Ok (Some data) => json_response 200 (json_document data)
      end
  end.

Definition api_description : value :=
  VObj [("message", VStr "AI Itinerary Generator API");
        ("endpoints",
         VObj [("POST /generate", VStr "Generate a new itinerary");
               ("GET /status/{jobId}", VStr "Check itinerary status")])].

(** The [fetch] handler of the worker on the store [db]: the response, the
    store it leaves, and the pipeline run it hands to [ctx.waitUntil]. *)
Definition fetch (request : Request) (w : RouterWorld) (db : Store)
    : Response * Store * option Job :=
  if String.eqb (method request) "OPTIONS" then
    ({| status := 200; headers := corsHeaders; body := no_body |}, db, None)
  else
    let routed : outcome (Response * Store * option Job) :=
      if String.eqb (method request) "POST"
         && String.eqb (pathname request) "/generate" then
        handle_generate request w db
      else if String.eqb (method request) "GET"
              && String.prefix "/status/" (pathname request) then
        Ok (handle_status request w db, db, None)
      else if String.eqb (method request) "GET"
              && String.eqb (pathname request) "/" then
        Ok (json_response 200 (json_value api_description), db, None)
      else
        Ok (error_response 404 "Endpoint not found", db, None) in
    match routed with
    | Ok answer => answer
    | Throw error => (error_response 500 "Internal server error", db, None)
    end.

(** ** The worker as a system

    Requests arrive and scheduled pipeline runs proceed in any order; a run
    can be overtaken between two of its store calls. *)

(** Where a run of [processItinerary] stands: handed to [ctx.waitUntil],
    past its first write, or in its [catch] block with the error caught. *)
Inductive Stage :=
| Scheduled
| Marked
| Caught (error : Error).

Record Task := {
  task_job : Job;
  task_stage : Stage
}.

(** The run [t] up to and including its next store call. *)
Definition resume (w : PipelineWorld) (t : Task) (db : Store)
    : Store * option Task :=
  let at_stage s := Some {| task_job := task_job t; task_stage := s |} in
  let jobId := job_id (task_job t) in
  match task_stage t with
  | Scheduled =>
      match pipeline_firestore w with
      | Throw _ => (db, None)
      | Ok _ =>
          match doc_update db jobId processing_fields (processing_call w) with
          | Ok db1 => (db1, at_stage Marked)
          | Throw error => (db, at_stage (Caught error))
          end
      end
  | Marked =>
      match (generate w (job_destination (task_job t))
               (job_durationDays (task_job t))).2 with
      | Throw error => (db, at_stage (Caught error))
      | Ok validatedData =>
          match doc_update db jobId (members_of validatedData)
                  (completed_call w) with
          | Ok db2 => (db2, None)
          | Throw error => (db, at_stage (Caught error))
          end
      end
  | Caught error => ((catch_block w jobId error db).1, None)
  end.

Record System := {
  store : Store;
  tasks : list Task
}.

(** What happens next: a request arrives, or the [i]-th pending run
    proceeds. *)
Inductive Input :=
| Arrives (request : Request) (w : RouterWorld)
| Resumes (i : nat) (w : PipelineWorld).

Definition step (input : Input) (sys : System) : System :=
  match input with
  | Arrives request w =>
      let '(_, db, scheduled) := fetch request w (store sys) in
      {| store := db;
         tasks := tasks sys ++
                  match scheduled with
                  | Some job => [{| task_job := job; task_stage := Scheduled |}]
                  | None => []
                  end |}
  | Resumes i w =>
      match tasks sys !! i with
      | None => sys
      | Some t =>
          let '(db, next) := resume w t (store sys) in
          {| store := db;
             tasks := match next with
                      | Some t' => <[i := t']> (tasks sys)
                      | None => delete i (tasks sys)
                      end |}
      end
  end.

Definition run (inputs : list Input) (sys : System) : System :=
  foldl (λ s input, step input s) sys inputs.
End Worker.

(** ** Vocabulary of the specification *)

Section Vocabulary.
Context `{host : Host}.

(** The events of [failures] failed attempts in a row, the first of them
    being attempt number [attempt]: each is followed by its delay of
    [2^attempt] seconds. *)
Fixpoint backoff (attempt failures : nat) : list Event :=
  match failures with
  | O => []
  | S failures' =>
      Called attempt :: Slept (2 ^ Z.of_nat attempt * 1000)
        :: backoff (S attempt) failures'
  end.

Definition is_call (event : Event) : bool :=
  match event with Called _ => true | Slept _ => false end.

(** The delays awaited, in milliseconds. *)
Definition delays (events : list Event) : list Z :=
  omap (λ event, match event with Slept ms => Some ms | Called _ => None end)
       events.

(** The value of key [k] in an object literal. *)
Fixpoint assoc (k : string) (data : list (string * value)) : option value :=
  match data with
  | [] => None
  | (k', v) :: rest => if String.eqb k k' then Some v else assoc k rest
  end.

(** The field [k] of the record of job [id]. *)
Definition field (db : Store) (id k : string) : option value :=
  db !! id ≫= λ record, record !! k.

(** A number [z.number()] lets through. *)
Definition zod_number (n : number) : Prop :=
  match n with
  | Finite _ => True
  | Infinity _ => zod_number_finite = false
  | NaN => False
  end.

(** An activity and a day as the pipeline stores them. *)
Definition ActivityRecord (v : value) : Prop :=
  ∃ time description location,
    v = VObj [("time", VStr time); ("description", VStr description);
              ("location", VStr location)].

Definition DayRecord (v : value) : Prop :=
  ∃ day theme activities,
    v = VObj [("day", VNum day); ("theme", VStr theme);
              ("activities", VArr activities)]
    ∧ zod_number day ∧ Forall ActivityRecord activities.

(** The shape the validation asks of the model's output: an array of
    objects with a number [day], a string [theme] and an array
    [activities] of objects with strings [time], [description] and
    [location]; further members are allowed. *)
Definition has_string (k : string) (members : list (string * value)) : Prop :=
  ∃ s, member k members = VStr s.

Definition activity_shaped (v : value) : Prop :=
  ∃ members, v = VObj members ∧ has_string "time" members
    ∧ has_string "description" members ∧ has_string "location" members.

Definition day_shaped (v : value) : Prop :=
  ∃ members day activities,
    v = VObj members ∧ member "day" members = VNum day ∧ zod_number day
    ∧ has_string "theme" members
    ∧ member "activities" members = VArr activities
    ∧ Forall activity_shaped activities.

Definition itinerary_shaped (v : value) : Prop :=
  ∃ days, v = VArr days ∧ Forall day_shaped days.

(** An error with a message. *)
Definition speaks (e : Error) : Prop := message e ≠ "".

(** The errors the engine, the libraries, the store and the model service
    raise all carry a message. *)
Definition host_speaks : Prop :=
  (∀ v k, speaks (TypeError_read v k))
  ∧ (∀ what, speaks (TypeError_not_a_function what))
  ∧ speaks TypeError_to_primitive
  ∧ (∀ v, speaks (ZodError v))
  ∧ (∀ id, speaks (NOT_FOUND id)).

Definition call_speaks (call : StoreCall) : Prop :=
  ∀ e, fault call = Some e → speaks e.

Definition world_speaks (w : PipelineWorld) : Prop :=
  call_speaks (processing_call w)
  ∧ call_speaks (completed_call w)
  ∧ (∀ prompt attempt e, openai w prompt attempt = Throw e → speaks e)
  ∧ (∀ prompt attempt response e,
       openai w prompt attempt = Ok response → json response = Throw e →
       speaks e).

(** A path segment: a string without a slash. *)
Fixpoint slashless (s : string) : bool :=
  match s with
  | "" => true
  | String c rest => negb (Ascii.eqb c "/") && slashless rest
  end.

(** The errors a run of the pipeline can catch: that of its first write,
    that of the steps up to the validation, or that of the write of the
    result. *)
Definition caught (w : PipelineWorld) (jobId : string)
    (destination durationDays : value) (db : Store) (e : Error) : Prop :=
  doc_update db jobId processing_fields (processing_call w) = Throw e
  ∨ (generate w destination durationDays).2 = Throw e
  ∨ ∃ validatedData db1,
      doc_update db1 jobId (members_of validatedData) (completed_call w)
      = Throw e.

(** The store answers: the client can be set up and the call does not
    fail. *)
Definition store_answers (w : RouterWorld) : Prop :=
  router_firestore w = Ok () ∧ fault (store_call w) = None.

(** A record in a terminal state. *)
Definition terminal (record : gmap string value) : Prop :=
  record !! "status" = Some (VStr "completed")
  ∨ record !! "status" = Some (VStr "failed").

(** Every pending run belongs to a record that is still [processing], and
    no two pending runs belong to the same record. *)
Definition pending_runs_own_their_record (sys : System) : Prop :=
  NoDup (job_id ∘ task_job <$> tasks sys)
  ∧ ∀ t, t ∈ tasks sys →
      field (store sys) (job_id (task_job t)) "status"
      = Some (VStr "processing").

(** The run [t] carried through by itself, at most [stages] store calls
    long. *)
Fixpoint drain (stages : nat) (w : PipelineWorld) (t : Task) (db : Store)
    : Store :=
  match stages with
  | O => db
  | S stages' =>
      match resume w t db with
      | (db', None) => db'
      | (db', Some t') => drain stages' w t' db'
      end
  end.

(** No request is given the identifier of a record that exists already. *)
Fixpoint identifiers_fresh (inputs : list Input) (sys : System) : bool :=
  match inputs with
  | [] => true
  | input :: rest =>
      match input with
      | Arrives request w =>
          match (fetch request w (store sys)).2 with
          | Some job => bool_decide (store sys !! job_id job = None)
          | None => true
          end
      | Resumes _ _ => true
      end && identifiers_fresh rest (step input sys)
  end.

(** The [try] block of [processItinerary] by itself: the store it leaves,
    the events of the model call, and the error it throws, if any. *)
Definition try_block (w : PipelineWorld) (jobId : string)
    (destination durationDays : value) (db : Store)
    : Store * list Event * outcome unit :=
  match doc_update db jobId processing_fields (processing_call w) with
  | Throw error => (db, [], Throw error)
  | Ok db1 =>
      let '(events, answer) := generate w destination durationDays in
      match answer with
      | Throw error => (db1, events, Throw error)
      | Ok validatedData =>
          match doc_update db1 jobId (members_of validatedData)
                  (completed_call w) with
          | Ok db2 => (db2, events, Ok ())
          | Throw error => (db1, events, Throw error)
          end
      end
  end.

(** The worlds in which the pending runs proceed all raise errors with a
    message. *)
Definition worlds_speak (inputs : list Input) : Prop :=
  ∀ i w, Resumes i w ∈ inputs → world_speaks w.

(** A record as the [catch] block leaves it when it was created by
    [POST /generate] and written by its own run only: the error is a string,
    not empty when errors carry a message ([speaking]), the time of
    completion is set, and the itinerary is the empty array of the
    creation. *)
Definition failure_recorded (speaking : Prop) (record : gmap string value)
    : Prop :=
  ∃ text t,
    record !! "error" = Some (VStr text)
    ∧ record !! "completedAt" = Some (VTimestamp t)
    ∧ record !! "itinerary" = Some (VArr [])
    ∧ (speaking → text ≠ "").

(** The record of every pending run still has the empty itinerary, and the
    error a run has caught has a message. *)
Definition pending_runs_have_no_itinerary (speaking : Prop) (sys : System)
    : Prop :=
  ∀ t, t ∈ tasks sys →
    field (store sys) (job_id (task_job t)) "itinerary" = Some (VArr [])
    ∧ ∀ e, task_stage t = Caught e → speaking → speaks e.

End Vocabulary.

(** ** A host and worlds for the examples *)

Module Sample.

(** The texts the example service sends as the content of its answer. *)
Definition empty_itinerary_text : string :=
  "{" +:+ quote +:+ "itinerary" +:+ quote +:+ ":[]}".

Definition quoted (s : string) : string := quote +:+ s +:+ quote.

(** The JSON text of an answer with an itinerary of one day, number 1, that
    has a single activity; the theme and the three strings of the activity
    are empty. *)
Definition one_bare_day_text : string :=
  "{" +:+ quoted "itinerary" +:+ ":[{" +:+ quoted "day" +:+ ":1,"
  +:+ quoted "theme" +:+ ":" +:+ quoted "" +:+ ","
  +:+ quoted "activities" +:+ ":[{" +:+ quoted "time" +:+ ":" +:+ quoted ""
  +:+ "," +:+ quoted "description" +:+ ":" +:+ quoted ""
  +:+ "," +:+ quoted "location" +:+ ":" +:+ quoted "" +:+ "}]}]}".

Definition bare_activity : value :=
  VObj [("time", VStr ""); ("description", VStr ""); ("location", VStr "")].

Definition bare_day : value :=
  VObj [("day", VNum (of_Z 1)); ("theme", VStr "");
        ("activities", VArr [bare_activity])].

(** The digits of the fraction [r / d], which is below 1, after the point:
    as many as it has, [digits] at most. *)
Fixpoint fraction (digits : nat) (r d : Z) : string :=
  match digits with
  | O => ""
  | S digits' =>
      if (r =? 0)%Z then ""
      else String (ascii_of_N (48 + Z.to_N (r * 10 / d)))
             (fraction digits' (r * 10 mod d) d)
  end.

(** A number in decimal: the whole part and, when there is one, the
    fraction. *)
Definition decimal (q : Q) : string :=
  let n := Z.abs (Qnum q) in
  let d := Zpos (Qden q) in
  (if (Qnum q <? 0)%Z then "-" else "")
  +:+ NilZero.string_of_int (Z.to_int (n / d))
  +:+ (if (n mod d =? 0)%Z then "" else "." +:+ fraction 17 (n mod d) d).

(** A host that agrees with the JavaScript engine on the inputs of the
    examples: whole numbers below 10^21 and fractions of a few decimal
    digits print in decimal, the messages of the TypeErrors are those of
    V8, and the JSON texts the examples parse are [empty_itinerary_text]
    and [one_bare_day_text]. *)
#[local] Instance host : Host := {|
  Number_toString n :=
    match n with
    | Finite q => decimal q
    | Infinity false => "Infinity"
    | Infinity true => "-Infinity"
    | NaN => "NaN"
    end;
  JSON_parse text :=
    if String.eqb text empty_itinerary_text
    then Ok (VObj [("itinerary", VArr [])])
    else if String.eqb text one_bare_day_text
    then Ok (VObj [("itinerary", VArr [bare_day])])
    else Throw (mkError "Unexpected token");
  TypeError_read v k :=
    mkError ("Cannot read properties of " +:+
             match v with VNull => "null" | _ => "undefined" end +:+
             " (reading '" +:+ k +:+ "')");
  TypeError_not_a_function what := mkError (what +:+ " is not a function");
  TypeError_to_primitive := mkError "Cannot convert object to primitive value";
  zod_number_finite := false;
  ZodError v := mkError "[ invalid input ]";
  NOT_FOUND id := mkError ("5 NOT_FOUND: No document to update: " +:+ id)
|}.

Definition at_time (t : Z) : StoreCall := {| fault := None; server_time := t |}.

Definition unavailable (t : Z) : StoreCall :=
  {| fault := Some (mkError "14 UNAVAILABLE"); server_time := t |}.

(** The world of a request that arrives at time 1000.  Two requests in
    this world arrive in the same millisecond and draw the same random
    number. *)
Definition router_world : RouterWorld :=
  {| router_firestore := Ok ();
     store_call := at_time 1000;
     Date_now := 1000;
     Math_random_36 := "0.4fzyo82mvyr" |}.

Definition no_credential : RouterWorld :=
  {| router_firestore := Throw (mkError "Unexpected end of JSON input");
     store_call := at_time 1000;
     Date_now := 1000;
     Math_random_36 := "0.4fzyo82mvyr" |}.

Definition store_down : RouterWorld :=
  {| router_firestore := Ok ();
     store_call := unavailable 1000;
     Date_now := 1000;
     Math_random_36 := "0.4fzyo82mvyr" |}.

Definition a_millisecond_later : RouterWorld :=
  {| router_firestore := Ok ();
     store_call := at_time 1001;
     Date_now := 1001;
     Math_random_36 := "0.4fzyo82mvyr" |}.

(** The identifier [generateJobId] gives in [router_world]. *)
Definition first_id : string := "job_1000_4fzyo82mv".

Definition post (body : value) : Request :=
  {| method := "POST"; pathname := "/generate"; request_json := Ok body |}.

Definition trip (days : number) : value :=
  VObj [("destination", VStr "Tokyo, Japan"); ("durationDays", VNum days)].

Definition poll (path : string) : Request :=
  {| method := "GET"; pathname := path;
     request_json := Throw (mkError "Unexpected end of JSON input") |}.

(** A model service whose every call fails with status 503. *)
Definition overloaded (prompt : string) (attempt : nat) : outcome ApiResponse :=
  Ok {| ok := false; http_status := 503;
        json := Ok (VObj [("error", VObj [("message", VStr "overloaded")])]) |}.

Definition answer_with (content : string) : outcome ApiResponse :=
  Ok {| ok := true; http_status := 200;
        json := Ok (VObj [("choices",
                 VArr [VObj [("message", VObj [("content", VStr content)])]])]) |}.

(** A model service that fails once and then answers with an itinerary of no
    days. *)
Definition second_time_lucky (prompt : string) (attempt : nat)
    : outcome ApiResponse :=
  match attempt with
  | 1%nat => Throw (mkError "Network connection lost.")
  | _ => answer_with empty_itinerary_text
  end.

Definition pipeline_world (service : string -> nat -> outcome ApiResponse)
    : PipelineWorld :=
  {| pipeline_firestore := Ok ();
     processing_call := at_time 1001;
     openai := service;
     completed_call := at_time 2000;
     failed_call := at_time 3000 |}.

(** A client asks for three days in Tokyo; the run of its job is resumed
    twice, which carries it through. *)
Definition one_job (service : string -> nat -> outcome ApiResponse)
    : list Input :=
  [Arrives (post (trip (of_Z 3))) router_world;
   Resumes 0 (pipeline_world service);
   Resumes 0 (pipeline_world service)].

Definition start : System := {| store := ∅; tasks := [] |}.

(** A job whose model calls all fail; the third stage of its run records
    the failure. *)
Definition one_failing_job : list Input :=
  one_job overloaded ++ [Resumes 0 (pipeline_world overloaded)].


(** A model service that answers with the itinerary of one bare day. *)
Definition one_bare_day (prompt : string) (attempt : nat)
    : outcome ApiResponse :=
  answer_with one_bare_day_text.

(** Two requests are given the same identifier; the run of the first
    completes the record with a day, then the run of the second, whose model
    calls all fail, marks it failed. *)
Definition two_jobs_one_identifier : list Input :=
  [Arrives (post (trip (of_Z 3))) router_world;
   Arrives (post (trip (of_Z 3))) router_world;
   Resumes 0 (pipeline_world one_bare_day);
   Resumes 0 (pipeline_world one_bare_day);
   Resumes 0 (pipeline_world overloaded);
   Resumes 0 (pipeline_world overloaded);
   Resumes 0 (pipeline_world overloaded)].

End Sample.

(** ** The callers of the worker *)

Section Callers.
Context `{host : Host}.

(** [v.length] for a value that is neither [null] nor [undefined]. *)
Definition get_length (v : value) : value :=
  match v with
  | VStr s => VNum (of_Z (Z.of_nat (js_length s)))
  | VArr items => VNum (of_Z (Z.of_nat (length items)))
  | VObj members => member "length" members
  | _ => VUndefined
  end.

(** [v === s] for a string literal [s]. *)
Definition is_string (v : value) (s : string) : bool :=
  match v with VStr s' => String.eqb s' s | _ => false end.

(** The conversion to a primitive value that a template literal and the
    comparison [v > 0] both start with; it throws for the same values in
    both. *)
Definition to_primitive (v : value) : outcome unit :=
  _ ← ToString v; Ok ().

(** What one iteration of the loop of [testStatusCheck] (the test script)
    decides: to return a result, or to go on, after a delay or at once. *)
Inductive Verdict :=
| Return (result : bool)
| Again (delay : option Z).

(** The body of the [while] loop of [testStatusCheck], given what
    [makeRequest] resolved to: the status code and the parsed body. *)
Definition check_once (answer : outcome (Z * value)) : Verdict :=
  let tried : outcome Verdict :=
    response ← answer;
    if Z.eqb response.1 200 then
      status ← get response.2 "status";
      _ ← to_primitive status;
      if is_string status "completed" then
        destination ← get response.2 "destination";
        _ ← to_primitive destination;
        durationDays ← get response.2 "durationDays";
        _ ← to_primitive durationDays;
        itinerary ← get response.2 "itinerary";
        _ ← (if truthy itinerary then to_primitive (get_length itinerary)
             else Ok ());
        Ok (Return true)
      else if is_string status "failed" then
        error ← get response.2 "error";
        _ ← (if truthy error then to_primitive error else Ok ());
        Ok (Return false)
      else if is_string status "processing" then
        Ok (Again (Some 3000%Z))
      else
        Ok (Again None)
    else
      Ok (Return false) in
  match tried with
  | Ok verdict => verdict
  | Throw error => Return false
  end.

(** The [while (attempts < maxAttempts)] loop of [testStatusCheck] from
    [attempts] on, with [remaining] iterations to go. *)
Fixpoint check_loop (answers : nat -> outcome (Z * value))
    (attempts remaining : nat) : list Event * bool :=
  match remaining with
  | O => ([], false)
  | S remaining' =>
      match check_once (answers attempts) with
      | Return result => ([Called attempts], result)
      | Again delay =>
          let '(events, result) :=
            check_loop answers (S attempts) remaining' in
          (Called attempts
             :: match delay with Some ms => [Slept ms] | None => [] end
             ++ events,
           result)
      end
  end.

Definition maxAttempts : nat := 10.

(** [testStatusCheck(workerUrl, jobId)]; [answers n] is what the request
    sent after [n] earlier ones resolves to. *)
Definition testStatusCheck (answers : nat -> outcome (Z * value))
    : list Event * bool :=
  let '(events, result) := check_loop answers 0 maxAttempts in
  (Slept 2000 :: events, result).

(** [formatTimestamp(timestamp)] of the status page; [toLocaleString] prints
    the date of a timestamp of the store. *)
Definition formatTimestamp (toLocaleString : Z -> string) (timestamp : value)
    : outcome string :=
  if negb (truthy timestamp) then Ok "N/A"
  else
    match timestamp with
    | VTimestamp t => Ok (toLocaleString t)
    | _ => Throw (TypeError_not_a_function "timestamp.toDate")
    end.

(** The values a JSON text denotes. *)
Fixpoint is_json (v : value) : bool :=
  match v with
  | VUndefined | VServerTimestamp | VTimestamp _ => false
  | VNull | VBool _ | VNum _ | VStr _ => true
  | VArr items => forallb is_json items
  | VObj members =>
      forallb (λ entry, let '(_, x) := entry in is_json x) members
  end.

(** The time awaited in all. *)
Definition total_delay (events : list Event) : Z :=
  foldr Z.add 0%Z (delays events).

Definition calls (events : list Event) : nat :=
  length (filter (λ event, is_call event = true) events).

(** The status codes the router answers with. *)
Definition status_codes : list Z := [200; 202; 400; 404; 500]%Z.

(** A record as the worker writes it: a status of the three, an itinerary
    of day records, and an error that is null or a string. *)
Definition well_formed_record (record : gmap string value) : Prop :=
  (∃ s, record !! "status" = Some (VStr s)
        ∧ s ∈ ["processing"; "completed"; "failed"])
  ∧ (∃ days, record !! "itinerary" = Some (VArr days) ∧ Forall DayRecord days)
  ∧ (record !! "error" = Some VNull ∨ ∃ text, record !! "error" = Some (VStr text)).


End Callers.

Module Cases.

(** A poll answered with a record of the given status. *)
Definition answered (state : string) : outcome (Z * value) :=
  Ok (200%Z, VObj [("status", VStr state);
                   ("destination", VStr "Tokyo, Japan");
                   ("durationDays", VNum (of_Z 3));
                   ("itinerary", VArr []);
                   ("error", VNull)]).

(** A job that is seen completed at the third poll. *)
Definition done_at_third (n : nat) : outcome (Z * value) :=
  match n with
  | 0%nat | 1%nat => answered "processing"
  | _ => answered "completed"
  end.

Definition never_done (n : nat) : outcome (Z * value) := answered "processing".



(** An answer of the model service with an error body. *)
Definition refused (code : Z) (body : value) : outcome ApiResponse :=
  Ok {| ok := false; http_status := code; json := Ok body |}.

Definition a_day : value :=
  VObj [("day", VNum (of_Z 1)); ("theme", VStr "Old town");
        ("note", VStr "not in the schema");
        ("activities",
         VArr [VObj [("time", VStr "Morning"); ("description", VStr "Walk");
                     ("location", VStr "Harbour"); ("price", VNum (of_Z 5))]])].

(** What validation makes of [a_day]. *)
Definition a_day_validated : value :=
  VObj [("day", VNum (of_Z 1)); ("theme", VStr "Old town");
        ("activities",
         VArr [VObj [("time", VStr "Morning"); ("description", VStr "Walk");
                     ("location", VStr "Harbour")]])].

(** A run that cannot set up the client of the store. *)
Definition no_store_client : PipelineWorld :=
  {| pipeline_firestore := Throw (mkError "Unexpected end of JSON input");
     processing_call := Sample.at_time 1001;
     openai := Sample.overloaded;
     completed_call := Sample.at_time 2000;
     failed_call := Sample.at_time 3000 |}.

(** A store with one record, of another job. *)
Definition other_job : Store := {[ "job_0" := ∅ ]}.

(** [n] times the string [s]. *)
Fixpoint times (n : nat) (s : string) : string :=
  match n with
  | O => ""
  | S n' => s +:+ times n' s
  end.

(** A content of 250 characters, of two bytes each, that is no JSON. *)
Definition accents : string := times 250 "é".

(** The time of a record as it arrives in a JSON text. *)
Definition time_as_json : value :=
  VObj [("_seconds", VNum (of_Z 1000)); ("_nanoseconds", VNum (of_Z 0))].

End Cases.

(** * Properties *)

Section Properties.
Context `{host : Host}.

#[local] Arguments of_Z : simpl never.
#[local] Arguments js_lt : simpl never.
#[local] Arguments js_gt : simpl never.
#[local] Arguments truthy : simpl never.
#[local] Arguments typeof : simpl never.
#[local] Arguments generateJobId : simpl never.

(** ** The retry loop *)

Lemma retry_loop_succeeds service retries failures :
  ∀ attempt remaining j,
    (∀ i, (i < failures)%nat →
          ∃ e, attempt_body (service (attempt + i)%nat) = Throw e) →
    attempt_body (service (attempt + failures)%nat) = Ok j →
    (failures < remaining)%nat →
    (attempt + remaining = S retries)%nat →
    retry_loop service retries attempt remaining
    = (backoff attempt failures ++ [Called (attempt + failures)%nat], Ok j).
Proof.
  induction failures as [|failures IH]; intros attempt remaining j Hfail Hok Hlt Hsum;
    destruct remaining as [|remaining]; try lia; simpl.
  - rewrite Nat.add_0_r in *. by rewrite Hok.
  - destruct (Hfail 0%nat) as [e He]; [lia|].
    rewrite Nat.add_0_r in He. rewrite He.
    destruct (Nat.eqb_spec attempt retries) as [->|_]; [lia|].
    replace (attempt + S failures)%nat with (S attempt + failures)%nat in * by lia.
    rewrite (IH (S attempt) remaining j); [done| |done|lia|lia].
    intros i Hi. destruct (Hfail (S i)) as [e' He']; [lia|].
    exists e'. by replace (S attempt + i)%nat with (attempt + S i)%nat by lia.
Qed.

Lemma retry_loop_gives_up service retries failures :
  ∀ attempt e,
    (∀ i, (i < failures)%nat →
          ∃ e', attempt_body (service (attempt + i)%nat) = Throw e') →
    attempt_body (service retries) = Throw e →
    (attempt + failures = retries)%nat →
    retry_loop service retries attempt (S failures)
    = (backoff attempt failures ++ [Called retries], Throw e).
Proof.
  induction failures as [|failures IH]; intros attempt e Hfail Hlast Hsum.
  - rewrite Nat.add_0_r in Hsum. subst attempt. simpl.
    by rewrite Hlast, Nat.eqb_refl.
  - destruct (Hfail 0%nat) as [e0 He0]; [lia|].
    rewrite Nat.add_0_r in He0.
    change (retry_loop service retries attempt (S (S failures)))
      with (match attempt_body (service attempt) with
            | Ok jsonResponse => ([Called attempt], Ok jsonResponse)
            | Throw error =>
                if Nat.eqb attempt retries then ([Called attempt], Throw error)
                else
                  let '(events, result) :=
                    retry_loop service retries (S attempt) (S failures) in
                  (Called attempt :: Slept (2 ^ Z.of_nat attempt * 1000) :: events,
                   result)
            end).
    rewrite He0.
    destruct (Nat.eqb_spec attempt retries) as [->|_]; [lia|].
    rewrite (IH (S attempt) e); [done| |done|lia].
    intros i Hi. destruct (Hfail (S i)) as [e' He']; [lia|].
    exists e'. by replace (S attempt + i)%nat with (attempt + S i)%nat by lia.
Qed.

Lemma retry_loop_calls service retries :
  ∀ remaining attempt,
    (length (filter (λ event, is_call event = true)
               (retry_loop service retries attempt remaining).1)
     ≤ remaining)%nat.
Proof.
  induction remaining as [|remaining IH]; intros attempt; simpl; [lia|].
  destruct (attempt_body (service attempt)); simpl; [lia|].
  destruct (Nat.eqb attempt retries); simpl; [lia|].
  specialize (IH (S attempt)).
  destruct (retry_loop service retries (S attempt) remaining) as [events result].
  simpl in *. rewrite filter_cons_False by done. lia.
Qed.

(** ** The store *)

Lemma list_to_map_assoc (data : list (string * value)) (k : string) :
  (list_to_map data : gmap string value) !! k = assoc k data.
Proof.
  induction data as [|[k' v] data IH]; simpl; [done|].
  rewrite lookup_insert. destruct (String.eqb_spec k k') as [->|Hne].
  - by rewrite decide_True.
  - by rewrite decide_False.
Qed.

Lemma fields_of_lookup call data k :
  fields_of call data !! k = stored (server_time call) <$> assoc k data.
Proof. unfold fields_of. by rewrite lookup_fmap, list_to_map_assoc. Qed.

Lemma updated_lookup call data (record : gmap string value) k :
  (fields_of call data ∪ record) !! k
  = match assoc k data with
    | Some v => Some (stored (server_time call) v)
    | None => record !! k
    end.
Proof.
  rewrite lookup_union, fields_of_lookup.
  destruct (assoc k data); simpl; [|by rewrite (left_id None _)].
  by destruct (record !! k).
Qed.

Lemma field_insert (db : Store) id record k :
  field (<[id := record]> db) id k = record !! k.
Proof. unfold field. by rewrite lookup_insert_eq. Qed.

Lemma field_insert_ne (db : Store) id id' record k :
  id ≠ id' → field (<[id := record]> db) id' k = field db id' k.
Proof. intros Hne. unfold field. by rewrite lookup_insert_ne. Qed.

Lemma doc_update_inv (db db' : Store) id data call :
  doc_update db id data call = Ok db' →
  ∃ record, db !! id = Some record
            ∧ db' = <[id := fields_of call data ∪ record]> db.
Proof.
  unfold doc_update. destruct (fault call); [done|].
  destruct (db !! id) as [record|]; [|done].
  intros [= <-]. by exists record.
Qed.

Lemma doc_update_ok (db : Store) id data call record :
  fault call = None → db !! id = Some record →
  doc_update db id data call = Ok (<[id := fields_of call data ∪ record]> db).
Proof. intros Hfault Hrecord. unfold doc_update. by rewrite Hfault, Hrecord. Qed.

Lemma doc_update_throws_speaks (db : Store) id data call e :
  host_speaks → call_speaks call →
  doc_update db id data call = Throw e → speaks e.
Proof.
  intros (_ & _ & _ & _ & Hnf) Hcall. unfold doc_update.
  destruct (fault call) as [e'|] eqn:Hfault.
  - intros [= <-]. by apply Hcall.
  - destruct (db !! id); [done|]. intros [= <-]. apply Hnf.
Qed.

(** ** The router *)

Lemma accepted_duration (durationDays : value) :
  truthy durationDays = true →
  negb (String.eqb (typeof durationDays) "number")
  || js_lt (as_number durationDays) (of_Z 1)
  || js_gt (as_number durationDays) (of_Z 30) = false →
  ∃ q, durationDays = VNum (Finite q) ∧ (1 <= q)%Q ∧ (q <= 30)%Q.
Proof.
  intros Htruthy Hchecks.
  apply orb_false_elim in Hchecks as [Hchecks Hgt].
  apply orb_false_elim in Hchecks as [Htype Hlt].
  destruct durationDays as [| | |[q|negative|]| | | | |]; try done.
  - exists q. split; [done|]. unfold js_gt, js_lt, of_Z in Hlt, Hgt.
    apply negb_false_iff in Hlt, Hgt.
    split; by apply Qle_bool_iff.
  - by destruct negative.
Qed.

(** What a request that schedules a run has done. *)
Lemma fetch_schedules request w (db db' : Store) response job :
  fetch request w db = (response, db', Some job) →
  ∃ body q,
    request_json request = Ok body
    ∧ get body "destination" = Ok (job_destination job)
    ∧ truthy (job_destination job) = true
    ∧ get body "durationDays" = Ok (job_durationDays job)
    ∧ job_durationDays job = VNum (Finite q) ∧ (1 <= q)%Q ∧ (q <= 30)%Q
    ∧ job_id job = generateJobId w
    ∧ store_answers w
    ∧ db' = <[job_id job :=
                fields_of (store_call w)
                  (initial_fields (job_destination job) (job_durationDays job))]> db
    ∧ status response = 202%Z.
Proof.
  unfold fetch. destruct (String.eqb (method request) "OPTIONS"); [done|].
  destruct (String.eqb (method request) "POST"
            && String.eqb (pathname request) "/generate"); simpl.
  2: { repeat case_match; simplify_eq/=; done. }
  unfold handle_generate.
  destruct (request_json request) as [body|]; simpl; [|done].
  destruct (get body "destination") as [destination|] eqn:Hdest; simpl; [|done].
  destruct (truthy destination) eqn:Htruthy; simpl; [|done].
  destruct (get body "durationDays") as [durationDays|] eqn:Hdays; simpl; [|done].
  destruct (truthy durationDays) eqn:Htruthy'; simpl; [|done].
  destruct (negb (String.eqb (typeof durationDays) "number")
            || js_lt (as_number durationDays) (of_Z 1)
            || js_gt (as_number durationDays) (of_Z 30)) eqn:Hchecks;
    simpl; [done|].
  destruct (accepted_duration _ Htruthy' Hchecks) as (q & -> & Hlo & Hhi).
  destruct (router_firestore w) as [[]|] eqn:Hfirestore; simpl; [|done].
  unfold doc_set. destruct (fault (store_call w)) eqn:Hfault; simpl; [done|].
  intros [= <- <- <-]. by exists body, q.
Qed.

Lemma fetch_without_job request w (db db' : Store) response :
  fetch request w db = (response, db', None) → db' = db.
Proof.
  unfold fetch. destruct (String.eqb (method request) "OPTIONS"); [congruence|].
  destruct (String.eqb (method request) "POST"
            && String.eqb (pathname request) "/generate"); simpl.
  2: { repeat case_match; intros; by simplify_eq/=. }
  unfold handle_generate.
  destruct (request_json request) as [body|]; simpl; [|congruence].
  destruct (get body "destination") as [destination|]; simpl; [|congruence].
  destruct (truthy destination); simpl; [|congruence].
  destruct (get body "durationDays") as [durationDays|]; simpl; [|congruence].
  destruct (truthy durationDays); simpl; [|congruence].
  destruct (negb (String.eqb (typeof durationDays) "number")
            || js_lt (as_number durationDays) (of_Z 1)
            || js_gt (as_number durationDays) (of_Z 30)); simpl; [congruence|].
  destruct (router_firestore w) as [[]|]; simpl; [|congruence].
  unfold doc_set. destruct (fault (store_call w)); simpl; congruence.
Qed.

Lemma member_absent k members :
  has_member k members = false → member k members = VUndefined.
Proof.
  induction members as [|[k' v] members IH]; simpl; [done|].
  destruct (String.eqb k k'); simpl; [done|]. exact IH.
Qed.

Lemma split_slash_slashless s : slashless s = true → split_slash s = [s].
Proof.
  induction s as [|c s IH]; simpl; [done|].
  destruct (Ascii.eqb c "/"); simpl; [done|].
  intros Hs. by rewrite (IH Hs).
Qed.

(** C10: a [POST /generate] whose body is not valid JSON is answered with
    status 500 and the body [{error: "Internal server error"}], not with
    status 400; the store is left as it was and no run is scheduled. *)
Theorem unparsable_body_is_internal_error (w : RouterWorld) (db : Store)
    (syntaxError : Error) :
  fetch {| method := "POST"; pathname := "/generate";
           request_json := Throw syntaxError |} w db
  = (error_response 500 "Internal server error", db, None).
Proof. reflexivity. Qed.

Lemma truthy_string s : s ≠ "" → truthy (VStr s) = true.
Proof. unfold truthy. by destruct s. Qed.

Lemma duration_in_range_passes q :
  (1 <= q)%Q → (q <= 30)%Q →
  truthy (VNum (Finite q)) = true
  ∧ js_lt (Finite q) (of_Z 1) = false
  ∧ js_gt (Finite q) (of_Z 30) = false.
Proof.
  intros Hlo Hhi. unfold truthy, js_gt, js_lt, of_Z. repeat split.
  - apply negb_true_iff, not_true_is_false.
    intros Hzero%Qeq_bool_iff. rewrite Hzero in Hlo. by apply Hlo.
  - apply negb_false_iff. by apply Qle_bool_iff.
  - apply negb_false_iff. by apply Qle_bool_iff.
Qed.

(** A valid request is stored and scheduled when the store answers. *)
Lemma generate_accepts w (db : Store) members destination q :
  member "destination" members = VStr destination → destination ≠ "" →
  member "durationDays" members = VNum (Finite q) →
  (1 <= q)%Q → (q <= 30)%Q →
  store_answers w →
  fetch {| method := "POST"; pathname := "/generate";
           request_json := Ok (VObj members) |} w db
  = (json_response 202
       (json_value (VObj [("jobId", VStr (generateJobId w));
                          ("message", VStr "Itinerary generation started")])),
     <[generateJobId w :=
         fields_of (store_call w)
           (initial_fields (VStr destination) (VNum (Finite q)))]> db,
     Some {| job_id := generateJobId w;
             job_destination := VStr destination;
             job_durationDays := VNum (Finite q) |}).
Proof.
  intros Hdest Hnonempty Hdays Hlo Hhi [Hfirestore Hfault].
  destruct (duration_in_range_passes q Hlo Hhi) as (Htruthy & Hlt & Hgt).
  unfold fetch, handle_generate, doc_set. simpl.
  rewrite Hdest, Hdays, (truthy_string _ Hnonempty). simpl.
  rewrite Htruthy. simpl. rewrite Hlt, Hgt, Hfirestore. simpl.
  by rewrite Hfault.
Qed.

Lemma generateJobId_nonempty w : generateJobId w ≠ "".
Proof. done. Qed.

(** C5: [POST /generate] answers 400 when [durationDays] is 0, 31 or the
    string "three" and when [destination] is missing; a request with a
    non-empty string [destination] and a number [durationDays] in [1, 30]
    is answered, when the store takes the record, with 202 and a non-empty
    [jobId]. *)
Theorem generate_validates_input (w : RouterWorld) (db : Store)
    (members : list (string * value)) :
  let request := {| method := "POST"; pathname := "/generate";
                    request_json := Ok (VObj members) |} in
  let response := (fetch request w db).1.1 in
  (member "durationDays" members = VNum (of_Z 0) → status response = 400%Z)
  ∧ (member "durationDays" members = VNum (of_Z 31) → status response = 400%Z)
  ∧ (member "durationDays" members = VStr "three" → status response = 400%Z)
  ∧ (has_member "destination" members = false → status response = 400%Z)
  ∧ (∀ destination q,
       member "destination" members = VStr destination → destination ≠ "" →
       member "durationDays" members = VNum (Finite q) →
       (1 <= q)%Q → (q <= 30)%Q →
       store_answers w →
       status response = 202%Z
       ∧ ∃ jobId, jobId ≠ ""
           ∧ body response
             = json_value (VObj [("jobId", VStr jobId);
                                 ("message", VStr "Itinerary generation started")])).
Proof.
  intros request response. subst request response.
  split_and!.
  - unfold fetch, handle_generate. simpl.
    intros ->. by destruct (truthy (member "destination" members)).
  - unfold fetch, handle_generate. simpl.
    intros ->. by destruct (truthy (member "destination" members)).
  - unfold fetch, handle_generate. simpl.
    intros ->. by destruct (truthy (member "destination" members)).
  - unfold fetch, handle_generate. simpl.
    intros Habsent. by rewrite (member_absent _ _ Habsent).
  - intros destination q Hdest Hnonempty Hdays Hlo Hhi Hstore.
    rewrite (generate_accepts w db members destination q) by done.
    split; [done|]. exists (generateJobId w).
    split; [apply generateJobId_nonempty|done].
Qed.

Lemma status_route request w (db : Store) :
  method request = "GET" →
  String.prefix "/status/" (pathname request) = true →
  fetch request w db = (handle_status request w db, db, None).
Proof. intros Hmethod Hpath. unfold fetch. by rewrite Hmethod, Hpath. Qed.

Lemma split_slash_first segment rest :
  slashless segment = true →
  split_slash (segment +:+ String "/" rest) = segment :: split_slash rest.
Proof.
  induction segment as [|c segment IH]; simpl; [done|].
  destruct (Ascii.eqb c "/"); simpl; [done|].
  intros Hsegment. by rewrite (IH Hsegment).
Qed.

Lemma append_empty s : s +:+ "" = s.
Proof.
  induction s as [|c s IH]; [done|].
  change (String c s +:+ "") with (String c (s +:+ "")). by rewrite IH.
Qed.

(** The third piece of the path: the identifier, when it is followed by
    nothing or by a slash. *)
Lemma status_segment jobId rest :
  slashless jobId = true →
  rest = "" ∨ (∃ tail, rest = String "/" tail) →
  split_slash ("/status/" +:+ jobId +:+ rest) !! 2%nat = Some jobId.
Proof.
  intros Hid [->|[tail ->]]; simpl.
  - change ("" +:+ jobId +:+ "") with (jobId +:+ "").
    rewrite append_empty. by rewrite (split_slash_slashless _ Hid).
  - change ("" +:+ jobId +:+ String "/" tail) with (jobId +:+ String "/" tail).
    by rewrite (split_slash_first _ _ Hid).
Qed.

Lemma status_prefix rest : String.prefix "/status/" ("/status/" +:+ rest) = true.
Proof. simpl. by destruct rest. Qed.

(** C6: [GET /status/...] with an empty identifier is answered 400; with an
    identifier, when the store answers, 404 and [{error: "Job not found"}]
    if it has no record of it, and 200 with the stored record as it is
    otherwise, whatever its status; the store is not written. *)
Theorem status_reads_the_record (request : Request) (w : RouterWorld)
    (db : Store) :
  method request = "GET" →
  (∀ rest, pathname request = "/status/" +:+ rest →
     rest = "" ∨ (∃ tail, rest = String "/" tail) →
     fetch request w db = (error_response 400 "Job ID is required", db, None))
  ∧ (∀ jobId rest,
       pathname request = "/status/" +:+ jobId +:+ rest →
       slashless jobId = true → jobId ≠ "" →
       rest = "" ∨ (∃ tail, rest = String "/" tail) →
       store_answers w →
       fetch request w db
       = (match db !! jobId with
          | None => error_response 404 "Job not found"
          | Some record => json_response 200 (json_document record)
          end, db, None)).
Proof.
  intros Hmethod. split.
  - intros rest Hpath Hrest.
    rewrite status_route by (done || by rewrite Hpath, status_prefix).
    pose proof (status_segment "" rest eq_refl Hrest) as Hsegment.
    change ("/status/" +:+ "" +:+ rest) with ("/status/" +:+ rest) in Hsegment.
    unfold handle_status. by rewrite Hpath, Hsegment.
  - intros jobId rest Hpath Hid Hnonempty Hrest [Hfirestore Hfault].
    rewrite status_route by (done || by rewrite Hpath, status_prefix).
    unfold handle_status, doc_get.
    rewrite Hpath, status_segment, Hfirestore by done. simpl.
    rewrite Hfault. destruct jobId; [done|]. by destruct (db !! _).
Qed.

(** C7, as the code has it: a request changes the store only by storing the
    record of the run it schedules, and the [durationDays] of that record
    is the [durationDays] of the body of the request, a number between 1
    and 30, whole or not; a request whose [durationDays] is no number, or a
    number outside of that range, stores nothing and schedules nothing, and
    [POST /generate] answers it 400 when its body is an object. *)
Theorem persisted_duration_in_range (request : Request) (w : RouterWorld)
    (db db' : Store) (response : Response) (scheduled : option Job) :
  fetch request w db = (response, db', scheduled) →
  match scheduled with
  | None => db' = db
  | Some job =>
      ∃ body q,
        request_json request = Ok body
        ∧ get body "durationDays" = Ok (VNum (Finite q))
        ∧ (1 <= q)%Q ∧ (q <= 30)%Q
        ∧ job_durationDays job = VNum (Finite q)
        ∧ field db' (job_id job) "durationDays" = Some (VNum (Finite q))
        ∧ ∀ j, j ≠ job_id job → db' !! j = db !! j
  end
  ∧ ∀ body,
      request_json request = Ok body →
      (∀ q, get body "durationDays" = Ok (VNum (Finite q)) →
            ¬ ((1 <= q)%Q ∧ (q <= 30)%Q)) →
      scheduled = None ∧ db' = db
      ∧ ∀ members,
          body = VObj members →
          method request = "POST" → pathname request = "/generate" →
          status response = 400%Z.
Proof.
  intros Hfetch. split.
  - destruct scheduled as [job|]; [|by eapply fetch_without_job].
    apply fetch_schedules in Hfetch
      as (body & q & Hbody & _ & _ & Hget & Hdays & Hlo & Hhi & _ & _ & -> & _).
    exists body, q. rewrite Hdays in Hget. split_and!; [done..| |].
    + by rewrite field_insert, fields_of_lookup, Hdays.
    + intros j Hj. by rewrite lookup_insert_ne.
  - intros body Hbody Hout.
    assert (scheduled = None) as ->.
    { destruct scheduled as [job|]; [|done]. exfalso.
      apply fetch_schedules in Hfetch
        as (body' & q & Hbody' & _ & _ & Hget & Hdays & Hlo & Hhi & _).
      rewrite Hbody in Hbody'. injection Hbody' as <-.
      rewrite Hdays in Hget. by apply (Hout q). }
    split_and!; [done|by eapply fetch_without_job|].
    intros members -> Hmethod Hpath. revert Hfetch.
    unfold fetch, handle_generate. rewrite Hmethod, Hpath, Hbody. simpl.
    destruct (truthy (member "destination" members)); simpl;
      [|by intros [= <- _]].
    destruct (truthy (member "durationDays" members)) eqn:Htruthy; simpl;
      [|by intros [= <- _]].
    destruct (negb (String.eqb (typeof (member "durationDays" members)) "number")
              || js_lt (as_number (member "durationDays" members)) (of_Z 1)
              || js_gt (as_number (member "durationDays" members)) (of_Z 30))
      eqn:Hchecks; simpl; [by intros [= <- _]|].
    destruct (accepted_duration _ Htruthy Hchecks) as (q & Hq & Hlo & Hhi).
    exfalso. apply (Hout q); [|done]. simpl. by rewrite Hq.
Qed.

(** C9, as the code has it: [POST /generate] is answered 500 with
    [{error: "Internal server error"}] when the body cannot be parsed, when
    it is [null] (or [undefined], which no JSON text denotes), and when the
    request is valid but the client of the store cannot be set up or the
    store refuses the record; when the store fails while the status handler
    fetches a record, that handler answers, 500 with [{error: "Failed to
    fetch job status"}]; no other response has status 500, and the store is
    left as it was. *)
Theorem router_failures (request : Request) (w : RouterWorld) (db : Store) :
  let store_fails :=
    (∃ e, router_firestore w = Throw e) ∨ (∃ e, fault (store_call w) = Some e) in
  let escapes :=
    (∃ e, request_json request = Throw e)
    ∨ (request_json request = Ok VNull ∨ request_json request = Ok VUndefined)
    ∨ (∃ members q,
         request_json request = Ok (VObj members)
         ∧ truthy (member "destination" members) = true
         ∧ member "durationDays" members = VNum (Finite q)
         ∧ (1 <= q)%Q ∧ (q <= 30)%Q
         ∧ store_fails) in
  let internal := (error_response 500 "Internal server error", db, None) in
  let unfetched := (error_response 500 "Failed to fetch job status", db, None) in
  (method request = "POST" → pathname request = "/generate" → escapes →
   fetch request w db = internal)
  ∧ (∀ jobId, method request = "GET" →
        String.prefix "/status/" (pathname request) = true →
        split_slash (pathname request) !! 2%nat = Some jobId → jobId ≠ "" →
        store_fails →
        fetch request w db = unfetched)
  ∧ (status (fetch request w db).1.1 = 500%Z →
     (method request = "POST" ∧ pathname request = "/generate" ∧ escapes
      ∧ fetch request w db = internal)
     ∨ (method request = "GET"
        ∧ String.prefix "/status/" (pathname request) = true
        ∧ store_fails
        ∧ fetch request w db = unfetched)).
Proof.
  intros store_fails escapes internal unfetched.
  subst store_fails escapes internal unfetched. split_and!.
  - intros Hmethod Hpath Hcause. unfold fetch, handle_generate.
    rewrite Hmethod, Hpath. simpl.
    destruct Hcause as [[e ->]|[[->| ->]|(members & q & -> & Hdest & Hdays & Hlo
                                         & Hhi & Hstore)]]; [done..|].
    destruct (duration_in_range_passes q Hlo Hhi) as (Htruthy & Hlt & Hgt).
    simpl. rewrite Hdest, Hdays. simpl. rewrite Htruthy. simpl.
    rewrite Hlt, Hgt. simpl. unfold doc_set.
    destruct Hstore as [[e ->]|[e ->]]; [done|].
    by destruct (router_firestore w) as [[]|].
  - intros jobId Hmethod Hpath Hsegment Hnonempty Hstore.
    rewrite status_route by done. unfold handle_status, doc_get.
    rewrite Hsegment. destruct jobId; [done|].
    destruct Hstore as [[e ->]|[e ->]]; [done|].
    by destruct (router_firestore w) as [[]|].
  - unfold fetch. destruct (String.eqb (method request) "OPTIONS"); [done|].
    destruct (String.eqb (method request) "POST"
              && String.eqb (pathname request) "/generate") eqn:Hroute; simpl.
    + apply andb_true_iff in Hroute as [Hmethod%String.eqb_eq Hpath%String.eqb_eq].
      unfold handle_generate, doc_set.
      destruct (request_json request) as [body|e0] eqn:Hbody; simpl.
      2: { intros _. left. split_and!; [done|done|left; by exists e0|done]. }
      destruct body as [| | | | | |members| |]; simpl;
        try (unfold truthy; simpl; discriminate).
      * intros _. left. split_and!; [done|done|right; left; by right|done].
      * intros _. left. split_and!; [done|done|right; left; by left|done].
      * destruct (truthy (member "destination" members)) eqn:Hdest; simpl;
          [|discriminate].
        destruct (truthy (member "durationDays" members)) eqn:Htruthy; simpl;
          [|discriminate].
        destruct (negb (String.eqb (typeof (member "durationDays" members))
                          "number")
                  || js_lt (as_number (member "durationDays" members)) (of_Z 1)
                  || js_gt (as_number (member "durationDays" members)) (of_Z 30))
          eqn:Hchecks; simpl; [discriminate|].
        destruct (accepted_duration _ Htruthy Hchecks) as (q & Hq & Hlo & Hhi).
        destruct (router_firestore w) as [[]|e0] eqn:Hfirestore; simpl.
        2: { intros _. left. split_and!; [done|done| |done]. right. right.
             exists members, q. split_and!; try done. left. by exists e0. }
        destruct (fault (store_call w)) as [e0|] eqn:Hfault; simpl;
          [|discriminate].
        intros _. left. split_and!; [done|done| |done]. right. right.
        exists members, q. split_and!; try done. right. by exists e0.
    + destruct (String.eqb (method request) "GET"
                && String.prefix "/status/" (pathname request)) eqn:Hroute';
        simpl.
      * apply andb_true_iff in Hroute' as [Hmethod%String.eqb_eq Hpath].
        unfold handle_status, doc_get.
        destruct (split_slash (pathname request) !! 2%nat) as [[|c jobId]|];
          [discriminate| |discriminate].
        destruct (router_firestore w) as [[]|e0] eqn:Hfirestore; simpl.
        2: { intros _. right. split_and!; [done|done|left; by exists e0|done]. }
        destruct (fault (store_call w)) as [e0|] eqn:Hfault; simpl.
        -- intros _. right. split_and!; [done|done|right; by exists e0|done].
        -- destruct (db !! _); discriminate.
      * by destruct (String.eqb (method request) "GET"
                     && String.eqb (pathname request) "/").
Qed.

(** ** The schemas *)

Lemma z_string_inv v out :
  z_string v = Some out → ∃ s, v = VStr s ∧ out = VStr s.
Proof. destruct v as [| | | |s| | | |]; try done. intros [= <-]. by exists s. Qed.

Lemma z_number_inv v out :
  z_number v = Some out → ∃ n, v = VNum n ∧ out = VNum n ∧ zod_number n.
Proof.
  destruct v as [| | |[q|negative|]| | | | |]; try done; simpl.
  - intros [= <-]. by exists (Finite q).
  - destruct zod_number_finite eqn:Hfinite; [done|].
    intros [= <-]. by exists (Infinity negative).
Qed.

Lemma z_array_inv element v out :
  z_array element v = Some out →
  ∃ items outs, v = VArr items ∧ mapM element items = Some outs
                ∧ out = VArr outs.
Proof.
  destruct v as [| | | | |items| | |]; try done; simpl.
  destruct (mapM element items) as [outs|] eqn:Hall; simpl; [|done].
  intros [= <-]. by exists items, outs.
Qed.

Lemma ActivitySchema_inv v a :
  ActivitySchema v = Some a →
  ∃ members time description location,
    v = VObj members
    ∧ member "time" members = VStr time
    ∧ member "description" members = VStr description
    ∧ member "location" members = VStr location
    ∧ a = VObj [("time", VStr time); ("description", VStr description);
                ("location", VStr location)].
Proof.
  unfold ActivitySchema, z_object.
  destruct v as [| | | | | |members| |]; try done; simpl.
  destruct (z_string (member "time" members)) as [o1|] eqn:H1; [|done].
  destruct (z_string (member "description" members)) as [o2|] eqn:H2; [|done].
  destruct (z_string (member "location" members)) as [o3|] eqn:H3; [|done].
  apply z_string_inv in H1 as (time & ? & ->).
  apply z_string_inv in H2 as (description & ? & ->).
  apply z_string_inv in H3 as (location & ? & ->).
  simpl. intros [= <-]. by exists members, time, description, location.
Qed.


Lemma activities_inv items outs :
  mapM ActivitySchema items = Some outs →
  Forall activity_shaped items ∧ Forall ActivityRecord outs.
Proof.
  intros Hall%mapM_Some. induction Hall as [|v a items outs Hone _ [IH1 IH2]];
    [done|].
  apply ActivitySchema_inv in Hone as (members & t & d & l & -> & Ht & Hd & Hl & ->).
  split; constructor; try done.
  - exists members. unfold has_string. eauto 10.
  - by exists t, d, l.
Qed.

Lemma DaySchema_inv v d :
  DaySchema v = Some d → day_shaped v ∧ DayRecord d.
Proof.
  unfold DaySchema, z_object.
  destruct v as [| | | | | |members| |]; try done; simpl.
  destruct (z_number (member "day" members)) as [o1|] eqn:H1; [|done].
  destruct (z_string (member "theme" members)) as [o2|] eqn:H2; [|done].
  destruct (z_array ActivitySchema (member "activities" members))
    as [o3|] eqn:H3; [|done].
  apply z_number_inv in H1 as (day & Hday & -> & Hzod).
  apply z_string_inv in H2 as (theme & Htheme & ->).
  apply z_array_inv in H3 as (items & outs & Hitems & Hall & ->).
  apply activities_inv in Hall as [Hshaped Hrecords].
  simpl. intros [= <-]. split.
  - exists members, day, items. unfold has_string. eauto 10.
  - by exists day, theme, outs.
Qed.


(** The array schema of the itinerary lets through exactly the values of
    the shape, and what it hands on are day records. *)
Lemma itinerary_validated raw out :
  z_array DaySchema raw = Some out →
  itinerary_shaped raw ∧ ∃ days, out = VArr days ∧ Forall DayRecord days.
Proof.
  intros (items & outs & -> & Hall%mapM_Some & ->)%z_array_inv.
  assert (Forall day_shaped items ∧ Forall DayRecord outs) as [Hshaped Hrecords].
  { induction Hall as [|v d items outs Hone _ [IH1 IH2]]; [done|].
    apply DaySchema_inv in Hone as [? ?]. split; by constructor. }
  split; [by exists items|by exists outs].
Qed.


Lemma ItinerarySchema_itineraryData destination durationDays raw validated :
  ItinerarySchema (itineraryData destination durationDays raw) = Some validated →
  ∃ out, z_array DaySchema raw = Some out
         ∧ validated = itineraryData destination durationDays out.
Proof.
  unfold ItinerarySchema, itineraryData, z_object. simpl.
  destruct (z_string destination) as [o1|] eqn:H1; [|done].
  destruct (z_number durationDays) as [o2|] eqn:H2; [|done].
  destruct (z_array DaySchema raw) as [out|] eqn:H3; [|done].
  apply z_string_inv in H1 as (s & -> & ->).
  apply z_number_inv in H2 as (n & -> & -> & _).
  simpl. intros [= <-]. by exists out.
Qed.

(** ** The errors that reach the [catch] block *)

Lemma ToString_throws v e : ToString v = Throw e → e = TypeError_to_primitive.
Proof.
  induction v as [| |b| | |items Hitems|members| |] using value_induction;
    simpl; try done.
  - by destruct b.
  - induction Hitems as [|x rest Hx _ IH]; [done|].
    destruct rest as [|y rest].
    + destruct x; try done; apply Hx.
    + match type of IH with ?J = _ → _ => set (joined := J) in * end.
      clearbody joined.
      assert (∀ first, first = match x with
                               | VUndefined | VNull => Ok ""
                               | _ => ToString x
                               end →
                       first = Throw e → e = TypeError_to_primitive) as Hfirst.
      { intros first ->. destruct x; try done; apply Hx. }
      specialize (Hfirst _ eq_refl).
      destruct (match x with
                | VUndefined | VNull => Ok ""
                | _ => ToString x
                end) as [s|e1]; simpl.
      * destruct joined as [r|e2]; simpl; [done|]. exact IH.
      * exact Hfirst.
  - destruct (has_member "toString" members); [|done]. by intros [= <-].
Qed.

(** The error is one the source builds, with a message of its own. *)
Ltac own_message := intros [= <-]; unfold speaks; simpl; discriminate.

Lemma get_throws v k e : get v k = Throw e → e = TypeError_read v k.
Proof. destruct v; simpl; congruence. Qed.

Lemma get_first_throws v e : get_first v = Throw e → e = TypeError_read v "0".
Proof. destruct v as [| | | |[|c s]| | | |]; simpl; congruence. Qed.

Lemma substring_0_200_throws content e :
  host_speaks → substring_0_200 content = Throw e → speaks e.
Proof.
  intros (Hread & Hcall & _).
  destruct content; simpl; try done; intros [= <-]; auto.
Qed.

(** Every error an attempt ends with has a message. *)
Lemma attempt_body_speaks answer e :
  host_speaks →
  (∀ e', answer = Throw e' → speaks e') →
  (∀ response e', answer = Ok response → json response = Throw e' → speaks e') →
  attempt_body answer = Throw e → speaks e.
Proof.
  intros Hhost Hfetch Hjson. pose proof Hhost as (Hread & Hcall & Hprim & _).
  unfold attempt_body. destruct answer as [response|e0]; simpl;
    [|intros [= <-]; by apply Hfetch].
  specialize (Hjson response).
  destruct (ok response); simpl.
  - destruct (json response) as [data|e0]; simpl;
      [|intros [= <-]; by eapply Hjson].
    destruct (get data "choices") as [choices|e0] eqn:Hchoices; simpl;
      [|intros [= <-]; apply get_throws in Hchoices as ->; apply Hread].
    destruct (get_first choices) as [first|e0] eqn:Hchoice; simpl;
      [|intros [= <-]; apply get_first_throws in Hchoice as ->; apply Hread].
    set (content := get_optional (get_optional first "message") "content").
    destruct (truthy content); simpl; [|own_message].
    destruct (ToString content ≫= λ text, JSON_parse text); simpl; [done|].
    destruct (substring_0_200 content) as [shown|e1] eqn:Hshown; simpl.
    + own_message.
    + intros [= <-]. by eapply substring_0_200_throws.
  - destruct (json response) as [errorData|e0]; simpl;
      [|intros [= <-]; by eapply Hjson].
    destruct (get errorData "error") as [error|e0] eqn:Herror; simpl;
      [|intros [= <-]; apply get_throws in Herror as ->; apply Hread].
    set (detail := get_optional error "message").
    destruct (ToString (if truthy detail then detail else VStr "Unknown error"))
      as [text|e0] eqn:Htext; simpl.
    + own_message.
    + intros [= <-]. by apply ToString_throws in Htext as ->.
Qed.

Lemma retry_loop_throws service retries :
  ∀ remaining attempt e,
    (retry_loop service retries attempt remaining).2 = Throw e →
    ∃ k, attempt_body (service k) = Throw e.
Proof.
  induction remaining as [|remaining IH]; intros attempt e; simpl; [done|].
  destruct (attempt_body (service attempt)) as [j|e0] eqn:Hattempt; simpl; [done|].
  destruct (Nat.eqb attempt retries); simpl.
  - intros [= <-]. by exists attempt.
  - specialize (IH (S attempt) e).
    by destruct (retry_loop service retries (S attempt) remaining).
Qed.

Lemma generate_throws_speaks w destination durationDays e :
  host_speaks → world_speaks w →
  (generate w destination durationDays).2 = Throw e → speaks e.
Proof.
  intros Hhost (_ & _ & Hfetch & Hjson).
  pose proof Hhost as (Hread & _ & Hprim & Hzod & _).
  unfold generate.
  destruct (createPrompt destination durationDays) as [prompt|e0] eqn:Hprompt;
    simpl.
  2: { intros [= <-]. revert Hprompt. unfold createPrompt.
       destruct (ToString durationDays) as [days|e1] eqn:Hdays; simpl;
         [|intros [= <-]; by apply ToString_throws in Hdays as ->].
       destruct (ToString destination) as [place|e1] eqn:Hplace; simpl; [done|].
       intros [= <-]. by apply ToString_throws in Hplace as ->. }
  destruct (callOpenAI (openai w) prompt default_retries)
    as [events answer] eqn:Hcall. simpl.
  destruct answer as [aiResponse|e0]; simpl.
  - destruct (get aiResponse "itinerary") as [raw|e0] eqn:Hraw; simpl;
      [|intros [= <-]; apply get_throws in Hraw as ->; apply Hread].
    unfold ItinerarySchema_parse. destruct (ItinerarySchema _); [done|].
    intros [= <-]. apply Hzod.
  - intros [= <-].
    destruct (retry_loop_throws (openai w prompt) default_retries
                default_retries 1 e0) as [k Hk].
    { unfold callOpenAI in Hcall. by rewrite Hcall. }
    eapply attempt_body_speaks; [done| | |exact Hk]; eauto.
Qed.

Lemma caught_speaks w jobId destination durationDays (db : Store) e :
  host_speaks → world_speaks w →
  caught w jobId destination durationDays db e → speaks e.
Proof.
  intros Hhost Hworld. pose proof Hworld as (Hfirst & Hlast & _).
  intros [Hthrows|[Hthrows|(validatedData & db1 & Hthrows)]].
  - eapply doc_update_throws_speaks; [done| |exact Hthrows]; done.
  - by eapply generate_throws_speaks.
  - eapply doc_update_throws_speaks; [done| |exact Hthrows]; done.
Qed.

(** ** The pipeline *)

Lemma generate_ok w destination durationDays validatedData :
  (generate w destination durationDays).2 = Ok validatedData →
  ∃ prompt aiResponse raw out,
    createPrompt destination durationDays = Ok prompt
    ∧ (callOpenAI (openai w) prompt default_retries).2 = Ok aiResponse
    ∧ get aiResponse "itinerary" = Ok raw
    ∧ z_array DaySchema raw = Some out
    ∧ validatedData = itineraryData destination durationDays out.
Proof.
  unfold generate.
  destruct (createPrompt destination durationDays) as [prompt|] eqn:Hprompt;
    [|done].
  destruct (callOpenAI (openai w) prompt default_retries)
    as [events answer] eqn:Hcall.
  simpl. destruct answer as [aiResponse|]; simpl; [|done].
  destruct (get aiResponse "itinerary") as [raw|] eqn:Hraw; simpl; [|done].
  unfold ItinerarySchema_parse.
  destruct (ItinerarySchema _) as [validated|] eqn:Hvalid; [|done].
  intros [= <-].
  apply ItinerarySchema_itineraryData in Hvalid as (out & Hout & ->).
  exists prompt, aiResponse, raw, out. by rewrite Hcall.
Qed.

(** A run only gets past the validation with a string for destination. *)
Lemma generate_ok_destination w destination durationDays validatedData :
  (generate w destination durationDays).2 = Ok validatedData →
  ∃ s, destination = VStr s.
Proof.
  unfold generate.
  destruct (createPrompt destination durationDays) as [prompt|]; [|done].
  destruct (callOpenAI (openai w) prompt default_retries) as [events answer].
  simpl. destruct answer as [aiResponse|]; simpl; [|done].
  destruct (get aiResponse "itinerary") as [raw|]; simpl; [|done].
  unfold ItinerarySchema_parse, ItinerarySchema, itineraryData, z_object. simpl.
  destruct (z_string destination) as [o1|] eqn:H1; [|done].
  apply z_string_inv in H1 as (s & -> & _). by exists s.
Qed.

(** The ways a run of the pipeline can leave the record it was started
    for. *)
Lemma processItinerary_endings w jobId destination durationDays (db : Store)
    record :
  db !! jobId = Some record →
  let db' := (processItinerary w jobId destination durationDays db).1.1 in
  let marked := fields_of (processing_call w) processing_fields ∪ record in
  db' = db
  ∨ db' = <[jobId := marked]> db
  ∨ (∃ e, caught w jobId destination durationDays db e
          ∧ db' = <[jobId := fields_of (failed_call w) (failed_fields e)
                             ∪ record]> db)
  ∨ (∃ e, caught w jobId destination durationDays db e
          ∧ db' = <[jobId := fields_of (failed_call w) (failed_fields e)
                             ∪ marked]> db)
  ∨ (∃ out, (generate w destination durationDays).2
            = Ok (itineraryData destination durationDays out)
            ∧ db' = <[jobId := fields_of (completed_call w)
                        (members_of (itineraryData destination durationDays out))
                      ∪ marked]> db).
Proof.
  intros Hrecord db' marked. subst db'. unfold processItinerary.
  destruct (pipeline_firestore w) as [[]|]; [|by left].
  destruct (doc_update db jobId processing_fields (processing_call w))
    as [db1|e] eqn:Hfirst.
  - apply doc_update_inv in Hfirst as (record' & Hrecord' & ->).
    assert (record' = record) as -> by congruence. fold marked.
    destruct (generate w destination durationDays) as [events answer] eqn:Hgen.
    assert ((generate w destination durationDays).2 = answer) as Hanswer
      by by rewrite Hgen.
    destruct answer as [validatedData|e].
    + destruct (generate_ok _ _ _ _ Hanswer)
        as (prompt & aiResponse & raw & out & _ & _ & _ & _ & ->).
      destruct (doc_update (<[jobId:=marked]> db) jobId _ (completed_call w))
        as [db2|e] eqn:Hlast.
      * apply doc_update_inv in Hlast as (record' & Hmarked & ->).
        rewrite lookup_insert_eq in Hmarked. injection Hmarked as <-.
        rewrite insert_insert_eq. simpl. do 4 right. by exists out.
      * unfold catch_block.
        destruct (doc_update (<[jobId:=marked]> db) jobId (failed_fields e)
                    (failed_call w)) as [db2|e'] eqn:Hcatch; simpl;
          [|by right; left].
        apply doc_update_inv in Hcatch as (record' & Hmarked & ->).
        rewrite lookup_insert_eq in Hmarked. injection Hmarked as <-.
        rewrite insert_insert_eq. do 3 right. left. exists e. split; [|done].
        right. right. eauto.
    + unfold catch_block.
      destruct (doc_update (<[jobId:=marked]> db) jobId (failed_fields e)
                  (failed_call w)) as [db2|e'] eqn:Hcatch; simpl;
        [|by right; left].
      apply doc_update_inv in Hcatch as (record' & Hmarked & ->).
      rewrite lookup_insert_eq in Hmarked. injection Hmarked as <-.
      rewrite insert_insert_eq. do 3 right. left. exists e. split; [|done].
      right. by left.
  - unfold catch_block.
    destruct (doc_update db jobId (failed_fields e) (failed_call w))
      as [db2|e'] eqn:Hcatch; simpl; [|by left].
    apply doc_update_inv in Hcatch as (record' & Hrecord' & ->).
    assert (record' = record) as -> by congruence.
    do 2 right. left. exists e. split; [by left|done].
Qed.

Ltac read_fields :=
  rewrite ?field_insert, ?updated_lookup, ?fields_of_lookup; simpl.
Ltac read_fields_in H :=
  rewrite ?field_insert, ?updated_lookup, ?fields_of_lookup in H; simpl in H.



(** The success write replaces [createdAt] by the time of the write; the
    [destination], [durationDays] and [error] it writes are those of the
    creation. *)
Lemma completion_rewrites_createdAt (request : Request) (rw : RouterWorld)
    (db db1 : Store) (response : Response) (job : Job) (pw : PipelineWorld) :
  fetch request rw db = (response, db1, Some job) →
  let db2 := (processItinerary pw (job_id job) (job_destination job)
                (job_durationDays job) db1).1.1 in
  field db2 (job_id job) "status" = Some (VStr "completed") →
  field db1 (job_id job) "createdAt"
  = Some (VTimestamp (server_time (store_call rw)))
  ∧ field db2 (job_id job) "createdAt"
    = Some (VTimestamp (server_time (completed_call pw)))
  ∧ field db2 (job_id job) "completedAt"
    = Some (VTimestamp (server_time (completed_call pw)))
  ∧ field db2 (job_id job) "destination" = field db1 (job_id job) "destination"
  ∧ field db2 (job_id job) "durationDays" = field db1 (job_id job) "durationDays"
  ∧ field db2 (job_id job) "error" = field db1 (job_id job) "error".
Proof.
  intros (body & q & _ & _ & _ & _ & Hq & _ & _ & _ & _ & Hdb1 & _)%fetch_schedules
    db2 Hcompleted.
  set (record := fields_of (store_call rw)
                   (initial_fields (job_destination job) (job_durationDays job)))
    in Hdb1.
  assert (db1 !! job_id job = Some record) as Hrecord
    by by rewrite Hdb1, lookup_insert_eq.
  pose proof (processItinerary_endings pw (job_id job) (job_destination job)
                (job_durationDays job) db1 record Hrecord) as Hend.
  cbv zeta in Hend. fold db2 in Hend.
  destruct Hend as [E|[E|[(e & He & E)|[(e & He & E)|(out & Hgen & E)]]]];
    rewrite E in Hcompleted |- *; clear E.
  - rewrite Hdb1 in Hcompleted. subst record. by read_fields_in Hcompleted.
  - subst record. by read_fields_in Hcompleted.
  - by read_fields_in Hcompleted.
  - by read_fields_in Hcompleted.
  - apply generate_ok_destination in Hgen as [s Hs].
    rewrite Hdb1. subst record. read_fields.
    by rewrite Hq, Hs.
Qed.

(** When the model call gives up, the run records the failure. *)
Lemma processItinerary_gives_up w jobId destination durationDays (db : Store)
    record prompt events e :
  pipeline_firestore w = Ok () →
  fault (processing_call w) = None → fault (failed_call w) = None →
  db !! jobId = Some record →
  createPrompt destination durationDays = Ok prompt →
  callOpenAI (openai w) prompt default_retries = (events, Throw e) →
  processItinerary w jobId destination durationDays db
  = (<[jobId := fields_of (failed_call w) (failed_fields e)
                 ∪ (fields_of (processing_call w) processing_fields ∪ record)]> db,
     events, Ok ()).
Proof.
  intros Hfirestore Hfirst Hlast Hrecord Hprompt Hcall.
  unfold processItinerary, generate, catch_block.
  rewrite Hfirestore, (doc_update_ok _ _ _ _ record), Hprompt, Hcall by done.
  simpl.
  erewrite doc_update_ok; [|done|by rewrite lookup_insert_eq].
  by rewrite insert_insert_eq.
Qed.

(** C1, as the code has it: [callOpenAI] sends at most three requests; it
    returns the JSON of the first attempt that succeeds and sends no
    request after it; each failed attempt but the last is followed by a
    delay of [2^attempt] seconds; after three failed attempts the error of
    the third is thrown, with delays of 2 and 4 seconds awaited and none
    after the last attempt, and the job is recorded as [failed] with the
    message of that error. *)
Theorem callOpenAI_retry_policy (service : string → nat → outcome ApiResponse)
    (prompt : string) :
  let result_of k := attempt_body (service prompt k) in
  let run := callOpenAI service prompt default_retries in
  (length (filter (λ event, is_call event = true) run.1) ≤ 3)%nat
  ∧ (∀ k j, (1 ≤ k ≤ 3)%nat →
       (∀ i, (1 ≤ i < k)%nat → ∃ e, result_of i = Throw e) →
       result_of k = Ok j →
       run = (backoff 1 (k - 1) ++ [Called k], Ok j))
  ∧ (∀ e, (∀ i, (1 ≤ i < 3)%nat → ∃ e', result_of i = Throw e') →
       result_of 3%nat = Throw e →
       run = ([Called 1; Slept 2000; Called 2; Slept 4000; Called 3], Throw e)
       ∧ delays run.1 = [2000; 4000]%Z
       ∧ ∀ w jobId destination durationDays (db : Store) record,
           openai w = service →
           createPrompt destination durationDays = Ok prompt →
           pipeline_firestore w = Ok () →
           fault (processing_call w) = None → fault (failed_call w) = None →
           db !! jobId = Some record →
           let finished := processItinerary w jobId destination durationDays db in
           field finished.1.1 jobId "status" = Some (VStr "failed")
           ∧ field finished.1.1 jobId "error" = Some (VStr (message e))
           ∧ delays finished.1.2 = [2000; 4000]%Z).
Proof.
  intros result_of run. split_and!.
  - apply retry_loop_calls.
  - intros k j Hk Hfail Hok. subst run. unfold callOpenAI, default_retries.
    replace k with (1 + (k - 1))%nat at 2 by lia.
    apply retry_loop_succeeds; [|replace (1 + (k - 1))%nat with k by lia; done|lia..].
    intros i Hi. apply Hfail. lia.
  - intros e Hfail Hlast.
    assert (run = ([Called 1; Slept 2000; Called 2; Slept 4000; Called 3], Throw e))
      as Hrun.
    { subst run. unfold callOpenAI, default_retries.
      rewrite (retry_loop_gives_up _ 3 2 1 e); [done| |done|done].
      intros i Hi. apply Hfail. lia. }
    split_and!; [done|by rewrite Hrun|].
    intros w jobId destination durationDays db record Hservice Hprompt Hfirestore
      Hfirst Hcatch Hrecord finished. subst finished service.
    erewrite processItinerary_gives_up by done. simpl.
    by read_fields.
Qed.

(** ** The worker as a system *)

(** A run resumed stage after stage, with nothing in between, is
    [processItinerary]. *)
Lemma drain_processItinerary w job (db : Store) :
  drain 3 w {| task_job := job; task_stage := Scheduled |} db
  = (processItinerary w (job_id job) (job_destination job)
       (job_durationDays job) db).1.1.
Proof.
  unfold processItinerary, drain, resume. simpl.
  destruct (pipeline_firestore w) as [[]|]; [|done].
  destruct (doc_update db (job_id job) processing_fields (processing_call w))
    as [db1|e]; simpl.
  - destruct (generate w (job_destination job) (job_durationDays job))
      as [events [validatedData|e]]; simpl.
    + destruct (doc_update db1 (job_id job) (members_of validatedData)
                  (completed_call w)) as [db2|e]; simpl; [done|].
      by destruct (catch_block w (job_id job) e db1).
    + by destruct (catch_block w (job_id job) e db1).
  - by destruct (catch_block w (job_id job) e db).
Qed.

(** A stage writes to the record of its run only, and a run that is not
    over leaves it [processing]. *)
Lemma resume_writes_own_record w t (db db' : Store) next :
  field db (job_id (task_job t)) "status" = Some (VStr "processing") →
  resume w t db = (db', next) →
  (∀ j, j ≠ job_id (task_job t) → db' !! j = db !! j)
  ∧ ∀ t', next = Some t' →
      task_job t' = task_job t
      ∧ field db' (job_id (task_job t)) "status" = Some (VStr "processing").
Proof.
  intros Hstatus. unfold resume, catch_block.
  destruct (task_stage t) as [| |e].
  - destruct (pipeline_firestore w) as [[]|]; [|by intros [= <- <-]].
    destruct (doc_update db _ processing_fields (processing_call w))
      as [db1|e] eqn:Hfirst; intros [= <- <-].
    + apply doc_update_inv in Hfirst as (record & Hrecord & ->).
      split; [intros j Hj; by rewrite lookup_insert_ne|].
      intros t' [= <-]. split; [done|]. by read_fields.
    + split; [done|]. by intros t' [= <-].
  - destruct (generate w _ _).2 as [validatedData|e]; [|intros [= <- <-]].
    + destruct (doc_update db _ (members_of validatedData) (completed_call w))
        as [db2|e] eqn:Hlast; intros [= <- <-].
      * apply doc_update_inv in Hlast as (record & Hrecord & ->).
        split; [intros j Hj; by rewrite lookup_insert_ne|done].
      * split; [done|]. by intros t' [= <-].
    + split; [done|]. by intros t' [= <-].
  - destruct (doc_update db _ (failed_fields e) (failed_call w))
      as [db2|e'] eqn:Hcatch; simpl; intros [= <- <-].
    + apply doc_update_inv in Hcatch as (record & Hrecord & ->).
      split; [intros j Hj; by rewrite lookup_insert_ne|done].
    + done.
Qed.

Lemma NoDup_delete_lookup {A} (l : list A) i x :
  NoDup l → l !! i = Some x → x ∉ delete i l.
Proof.
  intros Hnodup Hx. rewrite delete_take_drop.
  rewrite <- (take_drop_middle l i x Hx) in Hnodup.
  apply NoDup_app in Hnodup as (_ & Hfront & Hback%NoDup_cons).
  intros [Hin|Hin]%elem_of_app.
  - apply (Hfront x Hin). left.
  - by destruct Hback.
Qed.

Lemma field_elsewhere (db db' : Store) j k :
  db' !! j = db !! j → field db' j k = field db j k.
Proof. unfold field. by intros ->. Qed.

(** One step keeps pending runs and records in line and leaves every
    terminal record as it is, provided the step does not reuse an
    identifier. *)
Lemma step_keeps_terminal_records input sys :
  identifiers_fresh [input] sys = true →
  pending_runs_own_their_record sys →
  pending_runs_own_their_record (step input sys)
  ∧ ∀ j record, store sys !! j = Some record → terminal record →
      store (step input sys) !! j = Some record.
Proof.
  intros Hfresh [Hnodup Howned].
  destruct input as [request w|i w]; simpl in *.
  - destruct (fetch request w (store sys)) as [[response db'] scheduled] eqn:Hfetch.
    simpl in *. destruct scheduled as [job|].
    + rewrite andb_true_r in Hfresh. apply bool_decide_eq_true_1 in Hfresh.
      apply fetch_schedules in Hfetch
        as (body & q & _ & _ & _ & _ & _ & _ & _ & _ & _ & -> & _).
      assert (∀ t, t ∈ tasks sys → job_id (task_job t) ≠ job_id job) as Hother.
      { intros t Ht Heq. specialize (Howned t Ht). unfold field in Howned.
        by rewrite Heq, Hfresh in Howned. }
      split; [split|]; simpl.
      * rewrite fmap_app. apply NoDup_app. split_and!; [done| |apply NoDup_singleton].
        intros id (t & -> & Ht)%list_elem_of_fmap Hid%list_elem_of_singleton.
        by apply (Hother t).
      * intros t [Ht| ->%list_elem_of_singleton]%elem_of_app.
        -- rewrite field_insert_ne by (apply not_eq_sym, Hother; done).
           by apply Howned.
        -- simpl. by read_fields.
      * intros j record Hrecord _. rewrite lookup_insert_ne; [done|].
        intros <-. congruence.
    + apply fetch_without_job in Hfetch as ->. rewrite app_nil_r.
      by destruct sys.
  - destruct (tasks sys !! i) as [t|] eqn:Ht; [|done].
    assert (t ∈ tasks sys) as Hin by (apply list_elem_of_lookup; eauto).
    destruct (resume w t (store sys)) as [db' next] eqn:Hresume.
    destruct (resume_writes_own_record w t (store sys) db' next (Howned t Hin)
                Hresume) as [Hframe Hnext].
    split; [split|]; simpl.
    + destruct next as [t'|].
      * destruct (Hnext t' eq_refl) as [Hjob _].
        rewrite list_fmap_insert. simpl. rewrite Hjob, list_insert_id; [done|].
        by rewrite list_lookup_fmap, Ht.
      * rewrite list_fmap_delete.
        eapply sublist_NoDup; [done|apply sublist_delete].
    + intros t'' Hin''.
      destruct (decide (job_id (task_job t'') = job_id (task_job t))) as [Heq|Hne].
      * rewrite Heq. destruct next as [t'|]; [by apply (Hnext t')|].
        exfalso. eapply (NoDup_delete_lookup _ i (job_id (task_job t)) Hnodup).
        { by rewrite list_lookup_fmap, Ht. }
        rewrite <- list_fmap_delete, <- Heq.
        apply list_elem_of_fmap. by exists t''.
      * rewrite (field_elsewhere (store sys) db') by by apply Hframe.
        apply Howned. destruct next as [t'|].
        -- apply list_elem_of_lookup in Hin'' as [k Hk].
           apply list_lookup_insert_Some in Hk as [(-> & -> & _)|[_ Hk]].
           ++ destruct (Hnext t'' eq_refl) as [Hjob _]. by rewrite Hjob in Hne.
           ++ apply list_elem_of_lookup. eauto.
        -- by eapply list_elem_of_delete_inv.
    + intros j record Hrecord Hterminal. rewrite Hframe; [done|].
      intros ->. specialize (Howned t Hin). unfold field in Howned.
      rewrite Hrecord in Howned. simpl in Howned.
      destruct Hterminal as [Hterminal|Hterminal]; congruence.
Qed.

Lemma identifiers_fresh_cons input inputs sys :
  identifiers_fresh (input :: inputs) sys = true →
  identifiers_fresh [input] sys = true
  ∧ identifiers_fresh inputs (step input sys) = true.
Proof.
  simpl. intros [Hhead Htail]%andb_true_iff. by rewrite Hhead, Htail.
Qed.

Lemma identifiers_fresh_app earlier :
  ∀ later sys,
    identifiers_fresh (earlier ++ later) sys = true →
    identifiers_fresh earlier sys = true
    ∧ identifiers_fresh later (run earlier sys) = true.
Proof.
  induction earlier as [|input earlier IH]; intros later sys; [done|].
  simpl. intros [Hhead Htail]%andb_true_iff.
  destruct (IH later (step input sys) Htail) as [Hearlier Hlater].
  split; [|done]. by rewrite Hhead, Hearlier.
Qed.

Lemma run_keeps_terminal_records inputs :
  ∀ sys,
    identifiers_fresh inputs sys = true →
    pending_runs_own_their_record sys →
    pending_runs_own_their_record (run inputs sys)
    ∧ ∀ j record, store sys !! j = Some record → terminal record →
        store (run inputs sys) !! j = Some record.
Proof.
  induction inputs as [|input inputs IH]; intros sys Hfresh Hinv; [done|].
  apply identifiers_fresh_cons in Hfresh as [Hhead Htail].
  destruct (step_keeps_terminal_records input sys Hhead Hinv) as [Hinv' Hkept].
  destruct (IH (step input sys) Htail Hinv') as [Hinv'' Hkept'].
  split; [done|]. intros j record Hrecord Hterminal.
  apply Hkept'; [|done]. by apply Hkept.
Qed.

(** C3, as the code has it: as long as no request is given the identifier
    of a record that exists already, a record seen [completed] or [failed]
    is never written again, whatever requests arrive and pending runs
    proceed afterwards; in particular its status stays what it is. *)
Theorem terminal_records_are_final (db : Store) (earlier later : list Input)
    (j : string) (record : gmap string value) :
  let start := {| store := db; tasks := [] |} in
  identifiers_fresh (earlier ++ later) start = true →
  store (run earlier start) !! j = Some record →
  terminal record →
  store (run (earlier ++ later) start) !! j = Some record.
Proof.
  intros start [Hearlier Hlater]%identifiers_fresh_app Hrecord Hterminal.
  assert (pending_runs_own_their_record start) as Hstart.
  { split; simpl; [constructor|]. by intros t Ht%elem_of_nil. }
  destruct (run_keeps_terminal_records earlier start Hearlier Hstart)
    as [Hinv _].
  destruct (run_keeps_terminal_records later (run earlier start) Hlater Hinv)
    as [_ Hkept].
  unfold run at 1. rewrite foldl_app. apply Hkept; [|done]. exact Hrecord.
Qed.

(** [processItinerary] is its [try] block followed, when that throws, by
    its [catch] block. *)
Lemma processItinerary_try_catch w jobId destination durationDays (db : Store) :
  processItinerary w jobId destination durationDays db
  = match pipeline_firestore w with
    | Throw e => (db, [], Throw e)
    | Ok _ =>
        match try_block w jobId destination durationDays db with
        | (db', events, Ok _) => (db', events, Ok ())
        | (db', events, Throw error) =>
            ((catch_block w jobId error db').1, events,
             (catch_block w jobId error db').2)
        end
    end.
Proof.
  unfold processItinerary, try_block.
  destruct (pipeline_firestore w) as [[]|]; [|done].
  destruct (doc_update db jobId processing_fields (processing_call w))
    as [db1|e].
  - destruct (generate w destination durationDays) as [events [validatedData|e]].
    + destruct (doc_update db1 jobId (members_of validatedData)
                  (completed_call w)) as [db2|e]; [done|].
      by destruct (catch_block w jobId e db1).
    + by destruct (catch_block w jobId e db1).
  - by destruct (catch_block w jobId e db).
Qed.

(** What the [try] block throws is an error the run catches. *)
Lemma try_block_throws w jobId destination durationDays (db : Store) e :
  (try_block w jobId destination durationDays db).2 = Throw e →
  caught w jobId destination durationDays db e.
Proof.
  unfold try_block, caught.
  destruct (doc_update db jobId processing_fields (processing_call w))
    as [db1|e1]; simpl; [|intros [= <-]; by left].
  destruct (generate w destination durationDays) as [events [validatedData|e1]];
    simpl; [|intros [= <-]; right; by left].
  destruct (doc_update db1 jobId (members_of validatedData) (completed_call w))
    as [db2|e1] eqn:Hlast; simpl; [done|].
  intros [= <-]. right. right. eauto.
Qed.

(** A record left [failed] by the run of the request that created it. *)
Lemma failed_by_own_run (request : Request) (rw : RouterWorld)
    (db db1 : Store) (response : Response) (job : Job) (pw : PipelineWorld) :
  fetch request rw db = (response, db1, Some job) →
  let db2 := (processItinerary pw (job_id job) (job_destination job)
                (job_durationDays job) db1).1.1 in
  field db2 (job_id job) "status" = Some (VStr "failed") →
  ∃ e,
    (try_block pw (job_id job) (job_destination job) (job_durationDays job)
       db1).2 = Throw e
    ∧ field db2 (job_id job) "error" = Some (VStr (message e))
    ∧ field db2 (job_id job) "completedAt"
      = Some (VTimestamp (server_time (failed_call pw)))
    ∧ field db2 (job_id job) "itinerary" = Some (VArr [])
    ∧ (host_speaks → world_speaks pw → message e ≠ "").
Proof.
  intros (body & q & _ & _ & _ & _ & _ & _ & _ & _ & _ & Hdb1 & _)%fetch_schedules
    db2.
  set (record := fields_of (store_call rw)
                   (initial_fields (job_destination job) (job_durationDays job)))
    in Hdb1.
  assert (db1 !! job_id job = Some record) as Hrecord
    by by rewrite Hdb1, lookup_insert_eq.
  assert (record !! "status" = Some (VStr "processing")
          ∧ record !! "itinerary" = Some (VArr [])) as [Hstatus Hitinerary].
  { subst record. by rewrite !fields_of_lookup. }
  clearbody record. subst db2.
  rewrite processItinerary_try_catch.
  destruct (pipeline_firestore pw) as [[]|]; simpl.
  2: { unfold field. rewrite Hrecord. simpl. congruence. }
  pose proof (try_block_throws pw (job_id job) (job_destination job)
                (job_durationDays job) db1) as Hcaught.
  revert Hcaught. unfold try_block.
  destruct (doc_update db1 (job_id job) processing_fields (processing_call pw))
    as [marked|e] eqn:Hfirst.
  - apply doc_update_inv in Hfirst as (record' & Hrecord' & ->).
    assert (record' = record) as -> by congruence.
    destruct (generate pw (job_destination job) (job_durationDays job))
      as [events [validatedData|e]] eqn:Hgen.
    + assert ((generate pw (job_destination job) (job_durationDays job)).2
              = Ok validatedData) as Hok by by rewrite Hgen.
      apply generate_ok in Hok
        as (prompt & aiResponse & raw & out & _ & _ & _ & _ & ->).
      destruct (doc_update _ (job_id job) (members_of _) (completed_call pw))
        as [db2|e] eqn:Hlast; simpl.
      * apply doc_update_inv in Hlast as (record' & Hmarked & ->).
        rewrite lookup_insert_eq in Hmarked. injection Hmarked as <-.
        intros _ Hfailed. by read_fields_in Hfailed.
      * unfold catch_block.
        destruct (doc_update _ (job_id job) (failed_fields e) (failed_call pw))
          as [db2|e'] eqn:Hcatch; simpl; intros Hcaught Hfailed.
        -- apply doc_update_inv in Hcatch as (record' & Hmarked & ->).
           rewrite lookup_insert_eq in Hmarked. injection Hmarked as <-.
           exists e. read_fields. split_and!; try done.
           intros Hhost Hworld. eapply caught_speaks; [done..|by apply Hcaught].
        -- read_fields_in Hfailed. congruence.
    + unfold catch_block. simpl.
      destruct (doc_update _ (job_id job) (failed_fields e) (failed_call pw))
        as [db2|e'] eqn:Hcatch; simpl; intros Hcaught Hfailed.
      * apply doc_update_inv in Hcatch as (record' & Hmarked & ->).
        rewrite lookup_insert_eq in Hmarked. injection Hmarked as <-.
        exists e. read_fields. split_and!; try done.
        intros Hhost Hworld. eapply caught_speaks; [done..|by apply Hcaught].
      * read_fields_in Hfailed. congruence.
  - unfold catch_block. simpl.
    destruct (doc_update db1 (job_id job) (failed_fields e) (failed_call pw))
      as [db2|e'] eqn:Hcatch; simpl; intros Hcaught Hfailed.
    + apply doc_update_inv in Hcatch as (record' & Hrecord' & ->).
      assert (record' = record) as -> by congruence.
      exists e. read_fields. split_and!; try done.
      intros Hhost Hworld. eapply caught_speaks; [done..|by apply Hcaught].
    + unfold field in Hfailed. rewrite Hrecord in Hfailed. simpl in Hfailed.
      congruence.
Qed.

(** What a stage does to the record of its run: the itinerary of a run that
    is not over is still empty, an error it catches has a message, and the
    record it leaves [failed] is as the [catch] block writes it. *)
Lemma resume_records_failure (speaking : Prop) w t (db db' : Store) next :
  (speaking → host_speaks ∧ world_speaks w) →
  field db (job_id (task_job t)) "status" = Some (VStr "processing") →
  field db (job_id (task_job t)) "itinerary" = Some (VArr []) →
  (∀ e, task_stage t = Caught e → speaking → speaks e) →
  resume w t db = (db', next) →
  (∀ t', next = Some t' →
     field db' (job_id (task_job t)) "itinerary" = Some (VArr [])
     ∧ ∀ e, task_stage t' = Caught e → speaking → speaks e)
  ∧ ∀ record, db' !! job_id (task_job t) = Some record →
      record !! "status" = Some (VStr "failed") →
      failure_recorded speaking record.
Proof.
  intros Hspeaks Hstatus Hitinerary Hcaught.
  assert (∃ old, db !! job_id (task_job t) = Some old
                 ∧ old !! "status" = Some (VStr "processing")
                 ∧ old !! "itinerary" = Some (VArr [])) as (old & Hold & Hs & Hi).
  { unfold field in Hstatus, Hitinerary.
    destruct (db !! job_id (task_job t)) as [old|]; [|done]. by exists old. }
  assert (∀ record, db !! job_id (task_job t) = Some record →
            record !! "status" = Some (VStr "failed") →
            failure_recorded speaking record) as Huntouched.
  { intros record Hrecord Hfailed. congruence. }
  unfold resume, catch_block.
  destruct (task_stage t) as [| |e] eqn:Hstage.
  - destruct (pipeline_firestore w) as [[]|]; [|by intros [= <- <-]].
    destruct (doc_update db _ processing_fields (processing_call w))
      as [db1|e] eqn:Hfirst; intros [= <- <-].
    + apply doc_update_inv in Hfirst as (record & Hrecord & ->).
      assert (record = old) as -> by congruence. split.
      * intros t' [= <-]. split; [by read_fields|done].
      * intros record. rewrite lookup_insert_eq. intros [= <-].
        by rewrite updated_lookup.
    + split; [|done]. intros t' [= <-]. split; [done|]. simpl.
      intros e' [= <-] Hsp. destruct (Hspeaks Hsp) as [Hhost (Hcall & _)].
      by eapply doc_update_throws_speaks.
  - destruct (generate w _ _).2 as [validatedData|e] eqn:Hgen.
    + destruct (generate_ok _ _ _ _ Hgen)
        as (prompt & aiResponse & raw & out & _ & _ & _ & _ & ->).
      destruct (doc_update db _ (members_of _) (completed_call w))
        as [db2|e] eqn:Hlast; intros [= <- <-].
      * apply doc_update_inv in Hlast as (record & Hrecord & ->).
        split; [done|]. intros record'. rewrite lookup_insert_eq.
        intros [= <-]. by rewrite updated_lookup.
      * split; [|done]. intros t' [= <-]. split; [done|]. simpl.
        intros e' [= <-] Hsp. destruct (Hspeaks Hsp) as [Hhost (_ & Hcall & _)].
        by eapply doc_update_throws_speaks.
    + intros [= <- <-]. split; [|done]. intros t' [= <-]. split; [done|]. simpl.
      intros e' [= <-] Hsp. destruct (Hspeaks Hsp) as [Hhost Hworld].
      by eapply generate_throws_speaks.
  - destruct (doc_update db _ (failed_fields e) (failed_call w))
      as [db2|e'] eqn:Hcatch; simpl; intros [= <- <-]; [|done].
    apply doc_update_inv in Hcatch as (record & Hrecord & ->).
    assert (record = old) as -> by congruence.
    split; [done|]. intros record. rewrite lookup_insert_eq. intros [= <-] _.
    exists (message e), (server_time (failed_call w)).
    rewrite !updated_lookup. simpl. split_and!; try done.
    intros Hsp. by apply (Hcaught e).
Qed.

(** One step keeps the records of the pending runs without an itinerary and
    the failed record of an identifier as the [catch] block writes it,
    provided the step does not reuse an identifier. *)
Lemma step_keeps_failures_recorded (speaking : Prop) input sys j :
  (speaking → host_speaks ∧ ∀ i w, input = Resumes i w → world_speaks w) →
  identifiers_fresh [input] sys = true →
  pending_runs_own_their_record sys →
  pending_runs_have_no_itinerary speaking sys →
  (∀ record, store sys !! j = Some record →
     record !! "status" = Some (VStr "failed") →
     failure_recorded speaking record) →
  pending_runs_have_no_itinerary speaking (step input sys)
  ∧ ∀ record, store (step input sys) !! j = Some record →
      record !! "status" = Some (VStr "failed") →
      failure_recorded speaking record.
Proof.
  intros Hspeaks Hfresh [Hnodup Howned] Hempty Hrecorded.
  destruct input as [request w|i w]; simpl in *.
  - destruct (fetch request w (store sys)) as [[response db'] scheduled] eqn:Hfetch.
    simpl in *. destruct scheduled as [job|].
    + rewrite andb_true_r in Hfresh. apply bool_decide_eq_true_1 in Hfresh.
      apply fetch_schedules in Hfetch
        as (body & q & _ & _ & _ & _ & _ & _ & _ & _ & _ & -> & _).
      assert (∀ t, t ∈ tasks sys → job_id (task_job t) ≠ job_id job) as Hother.
      { intros t Ht Heq. specialize (Howned t Ht). unfold field in Howned.
        by rewrite Heq, Hfresh in Howned. }
      split; [unfold pending_runs_have_no_itinerary|]; simpl.
      * intros t [Ht| ->%list_elem_of_singleton]%elem_of_app; simpl.
        -- rewrite field_insert_ne by (apply not_eq_sym, Hother; done).
           by apply Hempty.
        -- split; [by read_fields|done].
      * intros record. destruct (decide (j = job_id job)) as [->|Hne].
        -- rewrite lookup_insert_eq. intros [= <-].
           by rewrite fields_of_lookup.
        -- rewrite lookup_insert_ne by done. apply Hrecorded.
    + apply fetch_without_job in Hfetch as ->. rewrite app_nil_r.
      by destruct sys.
  - destruct (tasks sys !! i) as [t|] eqn:Ht; [|done].
    assert (t ∈ tasks sys) as Hin by (apply list_elem_of_lookup; eauto).
    destruct (resume w t (store sys)) as [db' next] eqn:Hresume.
    destruct (resume_writes_own_record w t (store sys) db' next (Howned t Hin)
                Hresume) as [Hframe Hnext].
    destruct (Hempty t Hin) as [Hitinerary Hcaught].
    destruct (resume_records_failure speaking w t (store sys) db' next)
      as [Hnext' Hfailed]; [|by apply Howned|done..|].
    { intros Hsp. destruct (Hspeaks Hsp) as [Hhost Hworld].
      split; [done|]. by apply (Hworld i w). }
    split; [unfold pending_runs_have_no_itinerary|]; simpl.
    + intros t'' Hin''.
      assert (job_id (task_job t'') ≠ job_id (task_job t) →
              t'' ∈ tasks sys →
              field db' (job_id (task_job t'')) "itinerary" = Some (VArr [])
              ∧ ∀ e, task_stage t'' = Caught e → speaking → speaks e)
        as Helsewhere.
      { intros Hne Hold. destruct (Hempty t'' Hold) as [Hit Hc].
        split; [|done].
        by rewrite (field_elsewhere (store sys) db') by by apply Hframe. }
      destruct next as [t'|].
      * apply list_elem_of_lookup in Hin'' as [k Hk].
        apply list_lookup_insert_Some in Hk as [(-> & -> & _)|[_ Hk]].
        -- destruct (Hnext t'' eq_refl) as [Hjob _]. rewrite Hjob.
           by apply Hnext'.
        -- assert (t'' ∈ tasks sys) as Hold by (apply list_elem_of_lookup; eauto).
           destruct (decide (job_id (task_job t'') = job_id (task_job t)))
             as [Heq|Hne]; [|by apply Helsewhere].
           destruct (Hempty t'' Hold) as [_ Hc]. split; [|done].
           rewrite Heq. by apply (Hnext' t').
      * assert (t'' ∈ tasks sys) as Hold by by eapply list_elem_of_delete_inv.
        destruct (decide (job_id (task_job t'') = job_id (task_job t)))
          as [Heq|Hne]; [|by apply Helsewhere].
        exfalso. eapply (NoDup_delete_lookup _ i (job_id (task_job t)) Hnodup).
        { by rewrite list_lookup_fmap, Ht. }
        rewrite <- list_fmap_delete, <- Heq.
        apply list_elem_of_fmap. by exists t''.
    + intros record. destruct (decide (j = job_id (task_job t))) as [->|Hne].
      * apply Hfailed.
      * rewrite Hframe by done. apply Hrecorded.
Qed.

Lemma run_keeps_failures_recorded (speaking : Prop) j inputs :
  ∀ sys,
    (speaking → host_speaks ∧ ∀ i w, Resumes i w ∈ inputs → world_speaks w) →
    identifiers_fresh inputs sys = true →
    pending_runs_own_their_record sys →
    pending_runs_have_no_itinerary speaking sys →
    (∀ record, store sys !! j = Some record →
       record !! "status" = Some (VStr "failed") →
       failure_recorded speaking record) →
    ∀ record, store (run inputs sys) !! j = Some record →
      record !! "status" = Some (VStr "failed") →
      failure_recorded speaking record.
Proof.
  induction inputs as [|input inputs IH];
    intros sys Hspeaks Hfresh Hinv Hempty Hrecorded; [done|].
  apply identifiers_fresh_cons in Hfresh as [Hhead Htail].
  destruct (step_keeps_terminal_records input sys Hhead Hinv) as [Hinv' _].
  destruct (step_keeps_failures_recorded speaking input sys j)
    as [Hempty' Hrecorded']; [|done..|].
  { intros Hsp. destruct (Hspeaks Hsp) as [Hhost Hworlds]. split; [done|].
    intros i w ->. apply (Hworlds i w), list_elem_of_here. }
  apply (IH (step input sys)); [|done..].
  intros Hsp. destruct (Hspeaks Hsp) as [Hhost Hworlds]. split; [done|].
  intros i w Hin. by apply (Hworlds i w), list_elem_of_further.
Qed.

(** C4, as the code has it.  When the run of an accepted request leaves the
    record that request created [failed], the [error] field is the message
    of the error its [try] block threw, a string, non-empty since every
    error raised carries a message; [completedAt] is the time of that
    write, and [itinerary] is still the empty array of the creation.  And
    whatever requests arrive and pending runs proceed, in any order: as
    long as no request is given the identifier of a record that exists
    already, every record the worker has created and left [failed] has a
    string for [error], non-empty under the same condition, a time of
    completion, and the empty itinerary. *)
Theorem failed_job_record :
  (∀ (request : Request) (rw : RouterWorld) (db db1 : Store)
     (response : Response) (job : Job) (pw : PipelineWorld),
     fetch request rw db = (response, db1, Some job) →
     let db2 := (processItinerary pw (job_id job) (job_destination job)
                   (job_durationDays job) db1).1.1 in
     field db2 (job_id job) "status" = Some (VStr "failed") →
     ∃ e,
       (try_block pw (job_id job) (job_destination job) (job_durationDays job)
          db1).2 = Throw e
       ∧ field db2 (job_id job) "error" = Some (VStr (message e))
       ∧ field db2 (job_id job) "completedAt"
         = Some (VTimestamp (server_time (failed_call pw)))
       ∧ field db2 (job_id job) "itinerary" = Some (VArr [])
       ∧ (host_speaks → world_speaks pw → message e ≠ ""))
  ∧ (∀ (db : Store) (inputs : list Input) (j : string)
       (record : gmap string value),
       let start := {| store := db; tasks := [] |} in
       identifiers_fresh inputs start = true →
       db !! j = None →
       store (run inputs start) !! j = Some record →
       record !! "status" = Some (VStr "failed") →
       failure_recorded (host_speaks ∧ worlds_speak inputs) record).
Proof.
  split; [exact failed_by_own_run|].
  intros db inputs j record start Hfresh Hnew Hrecord Hfailed.
  apply (run_keeps_failures_recorded (host_speaks ∧ worlds_speak inputs) j
           inputs start); [|exact Hfresh| | | |exact Hrecord|exact Hfailed].
  - intros [Hhost Hworlds]. split; [done|exact Hworlds].
  - split; simpl; [constructor|]. by intros t Ht%elem_of_nil.
  - by intros t Ht%elem_of_nil.
  - simpl. intros record'. by rewrite Hnew.
Qed.

(** ** Further properties of the router *)

Lemma answer_with_job {A B C} (answer : A * B * C) (c : C) :
  answer.2 = c → answer = (answer.1.1, answer.1.2, c).
Proof. destruct answer as [[a b] c']. simpl. by intros ->. Qed.

Ltac listed :=
  repeat first [apply list_elem_of_here | apply list_elem_of_further].

(** The responses [handle_generate] gives. *)
Lemma handle_generate_cases request w (db db' : Store) response scheduled :
  handle_generate request w db = Ok (response, db', scheduled) →
  (scheduled = None ∧ db' = db
   ∧ (response = error_response 400
                   "Missing required fields: destination and durationDays"
      ∨ response = error_response 400
                     "durationDays must be a number between 1 and 30"))
  ∨ (∃ job, scheduled = Some job
            ∧ response
              = json_response 202
                  (json_value (VObj [("jobId", VStr (job_id job));
                                     ("message",
                                      VStr "Itinerary generation started")]))).
Proof.
  unfold handle_generate.
  destruct (request_json request) as [body|]; simpl; [|done].
  destruct (get body "destination") as [destination|]; simpl; [|done].
  destruct (truthy destination); simpl; [|intros [= <- <- <-]; left; auto].
  destruct (get body "durationDays") as [durationDays|]; simpl; [|done].
  destruct (truthy durationDays); simpl; [|intros [= <- <- <-]; left; auto].
  destruct (negb (String.eqb (typeof durationDays) "number")
            || js_lt (as_number durationDays) (of_Z 1)
            || js_gt (as_number durationDays) (of_Z 30)); simpl;
    [intros [= <- <- <-]; left; auto|].
  destruct (router_firestore w) as [[]|]; simpl; [|done].
  unfold doc_set. destruct (fault (store_call w)); simpl; [done|].
  intros [= <- <- <-]. right. by eexists.
Qed.

(** Every response carries the three cross-origin headers; the answer to
    [OPTIONS] is 200 with no body and nothing but these headers. *)
Theorem every_response_allows_any_origin (request : Request) (w : RouterWorld)
    (db : Store) :
  corsHeaders ⊆ headers (fetch request w db).1.1
  ∧ (method request = "OPTIONS" →
     fetch request w db
     = ({| status := 200; headers := corsHeaders; body := no_body |}, db, None)).
Proof.
  split; [|by intros Hmethod; unfold fetch; rewrite Hmethod].
  assert (∀ code b, corsHeaders ⊆ headers (json_response code b)) as Hjson.
  { intros code b. by apply list_subseteq_cons. }
  unfold fetch. destruct (String.eqb (method request) "OPTIONS"); [done|].
  destruct (String.eqb (method request) "POST"
            && String.eqb (pathname request) "/generate"); simpl.
  - destruct (handle_generate request w db) as [[[response db'] job]|] eqn:Hg;
      [|apply Hjson].
    apply handle_generate_cases in Hg
      as [(_ & _ & [-> | ->])|(job' & _ & ->)]; apply Hjson.
  - destruct (String.eqb (method request) "GET"
              && String.prefix "/status/" (pathname request)); simpl.
    + unfold handle_status.
      destruct (split_slash (pathname request) !! 2%nat) as [[|c jobId]|];
        try apply Hjson.
      destruct (_ ← router_firestore w; doc_get db _ (store_call w))
        as [[record|]|]; apply Hjson.
    + destruct (String.eqb (method request) "GET"
                && String.eqb (pathname request) "/"); apply Hjson.
Qed.

(** The router answers with 200, 202, 400, 404 or 500 only; it answers 202
    exactly when it hands a run to [ctx.waitUntil], and with any other
    status it leaves the store as it was. *)
Theorem accepted_means_scheduled (request : Request) (w : RouterWorld)
    (db : Store) :
  let answer := fetch request w db in
  status answer.1.1 ∈ status_codes
  ∧ (status answer.1.1 = 202%Z ↔ is_Some answer.2)
  ∧ (status answer.1.1 ≠ 202%Z → answer.1.2 = db).
Proof.
  intros answer. subst answer. unfold fetch.
  assert (∀ code : Z,
            code ≠ 202%Z → code ∈ status_codes →
            code ∈ status_codes
            ∧ (code = 202%Z ↔ is_Some (@None Job))
            ∧ (code ≠ 202%Z → db = db)) as Hplain.
  { intros code Hcode Hlisted. split_and!; [done| |done].
    split; [done|by intros ?%is_Some_None]. }
  destruct (String.eqb (method request) "OPTIONS").
  { apply Hplain; [done|listed]. }
  destruct (String.eqb (method request) "POST"
            && String.eqb (pathname request) "/generate"); simpl.
  - destruct (handle_generate request w db) as [[[response db'] job]|] eqn:Hg;
      simpl; [|apply Hplain; [done|listed]].
    apply handle_generate_cases in Hg
      as [(-> & -> & [-> | ->])|(job' & -> & ->)];
      [apply Hplain; [done|listed]..|].
    simpl. split_and!; [listed| |done]. split; [by eexists|done].
  - destruct (String.eqb (method request) "GET"
              && String.prefix "/status/" (pathname request)); simpl.
    + unfold handle_status.
      destruct (split_slash (pathname request) !! 2%nat) as [[|c jobId]|];
        try (apply Hplain; [done|listed]).
      destruct (_ ← router_firestore w; doc_get db _ (store_call w))
        as [[record|]|]; apply Hplain; (done || listed).
    + destruct (String.eqb (method request) "GET"
                && String.eqb (pathname request) "/");
        apply Hplain; (done || listed).
Qed.

(** A body that is valid JSON but no object: [null] makes the handler
    throw, which is answered 500; a boolean, a number, a string or an array
    has no [destination] and is answered 400.  Nothing is stored. *)
Theorem body_that_is_no_object (body : value) (w : RouterWorld) (db : Store) :
  is_json body = true →
  (∀ members, body ≠ VObj members) →
  fetch {| method := "POST"; pathname := "/generate";
           request_json := Ok body |} w db
  = (match body with
     | VNull => error_response 500 "Internal server error"
     | _ => error_response 400
              "Missing required fields: destination and durationDays"
     end, db, None).
Proof.
  intros Hjson Hobject. unfold fetch, handle_generate. simpl.
  destruct body as [| |b|n|s|items|members| |]; try done.
  by destruct (Hobject members).
Qed.

(** A request changes no record but the one of the identifier it
    generates. *)
Theorem fetch_writes_one_record (request : Request) (w : RouterWorld)
    (db : Store) (j : string) :
  j ≠ generateJobId w →
  (fetch request w db).1.2 !! j = db !! j.
Proof.
  intros Hj.
  destruct (fetch request w db) as [[response db'] scheduled] eqn:Hfetch.
  simpl. destruct scheduled as [job|].
  - apply fetch_schedules in Hfetch
      as (body & q & _ & _ & _ & _ & _ & _ & _ & Hid & _ & -> & _).
    rewrite lookup_insert_ne; [done|]. by rewrite Hid.
  - by apply fetch_without_job in Hfetch as ->.
Qed.

(** The record an accepted request stores. *)
Lemma created_record request w (db db' : Store) response job :
  fetch request w db = (response, db', Some job) →
  db' !! job_id job
  = Some (fields_of (store_call w)
            (initial_fields (job_destination job) (job_durationDays job))).
Proof.
  intros (body & q & _ & _ & _ & _ & _ & _ & _ & _ & _ & -> & _)%fetch_schedules.
  by rewrite lookup_insert_eq.
Qed.

(** Create, then poll: the identifier an accepted request returns, used
    right away in [GET /status/...], is answered 200 with the record just
    stored: [processing], no itinerary, no error, no time of completion,
    and the destination and duration of the request. *)
Theorem created_job_can_be_polled (request : Request) (w w' : RouterWorld)
    (db db1 : Store) (response : Response) (job : Job) :
  fetch request w db = (response, db1, Some job) →
  slashless (job_id job) = true →
  store_answers w' →
  body response
  = json_value (VObj [("jobId", VStr (job_id job));
                      ("message", VStr "Itinerary generation started")])
  ∧ ∃ record,
      fetch {| method := "GET"; pathname := "/status/" +:+ job_id job;
               request_json := request_json request |} w' db1
      = (json_response 200 (json_document record), db1, None)
      ∧ record !! "status" = Some (VStr "processing")
      ∧ record !! "destination" = Some (stored (server_time (store_call w))
                                          (job_destination job))
      ∧ record !! "durationDays" = Some (job_durationDays job)
      ∧ record !! "createdAt" = Some (VTimestamp (server_time (store_call w)))
      ∧ record !! "completedAt" = Some VNull
      ∧ record !! "itinerary" = Some (VArr [])
      ∧ record !! "error" = Some VNull.
Proof.
  intros Hfetch Hslashless Hstore.
  pose proof (created_record _ _ _ _ _ _ Hfetch) as Hrecord.
  split.
  { unfold fetch in Hfetch.
    destruct (String.eqb (method request) "OPTIONS"); [done|].
    destruct (String.eqb (method request) "POST"
              && String.eqb (pathname request) "/generate"); simpl in Hfetch.
    2: { repeat case_match; simplify_eq/=; done. }
    destruct (handle_generate request w db) as [[[r d] s]|] eqn:Hg; [|done].
    injection Hfetch as -> -> ->.
    apply handle_generate_cases in Hg as [(? & _)|(job' & [= <-] & ->)]; done. }
  eexists. split.
  - etrans.
    + apply (proj2 (status_reads_the_record
                      {| method := "GET"; pathname := "/status/" +:+ job_id job;
                         request_json := request_json request |} w' db1 eq_refl)
               (job_id job) "").
      * by rewrite append_empty.
      * done.
      * apply fetch_schedules in Hfetch
          as (_ & _ & _ & _ & _ & _ & _ & _ & _ & -> & _). done.
      * by left.
      * done.
    + by rewrite Hrecord.
  - apply fetch_schedules in Hfetch
      as (_ & q & _ & _ & _ & _ & Hq & _).
    rewrite !fields_of_lookup. simpl. by rewrite Hq.
Qed.

(** ** Further properties of the pipeline *)

(** A run for an identifier that has no record: both writes are refused,
    the store is left as it was, the model is not called, and the promise
    is rejected. *)
Theorem run_without_record (w : PipelineWorld) (jobId : string)
    (destination durationDays : value) (db : Store) :
  db !! jobId = None →
  ∃ e, processItinerary w jobId destination durationDays db
       = (db, [], Throw e).
Proof.
  intros Hnone. unfold processItinerary, catch_block, doc_update.
  rewrite Hnone.
  destruct (pipeline_firestore w) as [[]|e]; [|by exists e].
  destruct (fault (processing_call w)) as [e|];
    destruct (fault (failed_call w)) as [e'|]; by eexists.
Qed.

(** A run writes to the record of its job only, and neither creates nor
    deletes a record. *)
Theorem run_writes_one_record (w : PipelineWorld) (jobId : string)
    (destination durationDays : value) (db : Store) (j : string) :
  let db' := (processItinerary w jobId destination durationDays db).1.1 in
  (j ≠ jobId → db' !! j = db !! j)
  ∧ (is_Some (db' !! j) ↔ is_Some (db !! j)).
Proof.
  intros db'. subst db'.
  destruct (db !! jobId) as [record|] eqn:Hrecord.
  - pose proof (processItinerary_endings w jobId destination durationDays db
                  record Hrecord) as Hend.
    cbv zeta in Hend.
    assert (∀ fields : gmap string value,
              (j ≠ jobId → <[jobId := fields]> db !! j = db !! j)
              ∧ (is_Some (<[jobId := fields]> db !! j) ↔ is_Some (db !! j)))
      as Hinsert.
    { intros fields. split; [intros Hj; by rewrite lookup_insert_ne|].
      destruct (decide (jobId = j)) as [<-|Hj].
      - rewrite lookup_insert_eq, Hrecord. split; by eexists.
      - by rewrite lookup_insert_ne. }
    destruct Hend as [E|[E|[(e & _ & E)|[(e & _ & E)|(out & _ & E)]]]];
      rewrite E; done || apply Hinsert.
  - destruct (run_without_record w jobId destination durationDays db Hrecord)
      as [e ->]. done.
Qed.

(** The events of a call of the model with the default of three attempts. *)
Lemma callOpenAI_events service prompt :
  (callOpenAI service prompt default_retries).1
  ∈ [[Called 1]; [Called 1; Slept 2000; Called 2];
     [Called 1; Slept 2000; Called 2; Slept 4000; Called 3]].
Proof.
  unfold callOpenAI, default_retries. simpl.
  destruct (attempt_body (service prompt 1%nat)); simpl; [listed|].
  destruct (attempt_body (service prompt 2%nat)); simpl; [listed|].
  destruct (attempt_body (service prompt 3%nat)); simpl; listed.
Qed.

(** A run calls the model at most three times and waits at most six seconds
    between the calls; when the store client cannot be set up or the first
    write fails, it does not call the model at all. *)
Theorem run_calls_model_at_most_thrice (w : PipelineWorld) (jobId : string)
    (destination durationDays : value) (db : Store) :
  let events := (processItinerary w jobId destination durationDays db).1.2 in
  (calls events ≤ 3)%nat
  ∧ (total_delay events <= 6000)%Z
  ∧ ((∃ e, pipeline_firestore w = Throw e)
     ∨ (∃ e, doc_update db jobId processing_fields (processing_call w) = Throw e)
     → events = []).
Proof.
  intros events. subst events.
  assert (∀ l : list Event,
            l = [] ∨ l ∈ [[Called 1]; [Called 1; Slept 2000; Called 2];
                          [Called 1; Slept 2000; Called 2; Slept 4000; Called 3]] →
            (calls l ≤ 3)%nat ∧ (total_delay l <= 6000)%Z) as Hbound.
  { intros l [->|Hl]; [split; [vm_compute; lia|by vm_compute]|].
    repeat (apply elem_of_cons in Hl as [->|Hl];
            [split; [vm_compute; lia|by vm_compute]|]).
    by apply elem_of_nil in Hl. }
  unfold processItinerary.
  destruct (pipeline_firestore w) as [[]|e0]; simpl.
  2: { split_and!; [apply Hbound; by left..|done]. }
  destruct (doc_update db jobId processing_fields (processing_call w))
    as [db1|e1]; simpl.
  2: { destruct (catch_block w jobId e1 db).
       simpl. split_and!; [apply Hbound; by left..|done]. }
  assert ((generate w destination durationDays).1 = []
          ∨ (generate w destination durationDays).1
            ∈ [[Called 1]; [Called 1; Slept 2000; Called 2];
               [Called 1; Slept 2000; Called 2; Slept 4000; Called 3]])
    as Hevents.
  { unfold generate.
    destruct (createPrompt destination durationDays) as [prompt|]; [|by left].
    pose proof (callOpenAI_events (openai w) prompt) as Hcall.
    destruct (callOpenAI (openai w) prompt default_retries). by right. }
  destruct (generate w destination durationDays) as [events answer].
  simpl in Hevents.
  assert (∀ (db2 : Store) (settled : outcome unit),
            (calls (db2, events, settled).1.2 ≤ 3)%nat
            ∧ (total_delay (db2, events, settled).1.2 <= 6000)%Z
            ∧ ((∃ e, Ok () = Throw e) ∨ (∃ e, Ok db1 = Throw e) →
               (db2, events, settled).1.2 = [])) as Hdone.
  { intros db2 settled. simpl. split_and!; [by apply Hbound..|].
    by intros [[e He]|[e He]]. }
  destruct answer as [validatedData|e].
  - destruct (doc_update db1 jobId (members_of validatedData) (completed_call w));
      [apply Hdone|].
    destruct (catch_block w jobId e db1). apply Hdone.
  - destruct (catch_block w jobId e db1). apply Hdone.
Qed.



(** ** Further properties of the validation *)

Lemma ActivityRecord_valid a : ActivityRecord a → ActivitySchema a = Some a.
Proof. by intros (time & description & location & ->). Qed.

Lemma activities_valid activities :
  Forall ActivityRecord activities →
  mapM ActivitySchema activities = Some activities.
Proof.
  intros Hall. apply mapM_Some. induction Hall as [|a activities Ha _ IH];
    constructor; [by apply ActivityRecord_valid|done].
Qed.

Lemma DaySchema_unfold members :
  DaySchema (VObj members)
  = (day ← z_number (member "day" members);
     theme ← z_string (member "theme" members);
     activities ← z_array ActivitySchema (member "activities" members);
     Some (VObj [("day", day); ("theme", theme); ("activities", activities)])).
Proof.
  unfold DaySchema, z_object. simpl.
  destruct (z_number (member "day" members)); simpl; [|done].
  destruct (z_string (member "theme" members)); simpl; [|done].
  by destruct (z_array ActivitySchema (member "activities" members)).
Qed.

Lemma DayRecord_valid d : DayRecord d → DaySchema d = Some d.
Proof.
  intros (day & theme & activities & -> & Hday & Hall).
  assert (z_number (VNum day) = Some (VNum day)) as Hnumber.
  { destruct day; simpl in *; [done| |done]. by rewrite Hday. }
  rewrite DaySchema_unfold.
  change (member "day" _) with (VNum day).
  change (member "theme" _) with (VStr theme).
  change (member "activities" _) with (VArr activities).
  rewrite Hnumber. simpl. by rewrite (activities_valid _ Hall).
Qed.

Lemma days_valid days :
  Forall DayRecord days → mapM DaySchema days = Some days.
Proof.
  intros Hall. apply mapM_Some. induction Hall as [|d days Hd _ IH];
    constructor; [by apply DayRecord_valid|done].
Qed.

(** The day records are the values the schema of a day hands on unchanged,
    and it hands on nothing else. *)
Theorem day_records_are_the_valid_days (d : value) :
  DayRecord d ↔ DaySchema d = Some d.
Proof.
  split; [apply DayRecord_valid|]. by intros [_ Hrecord]%DaySchema_inv.
Qed.

(** Validation is idempotent: what [ItinerarySchema.parse] returns, it
    returns again when given its own result. *)
Theorem validation_is_idempotent (data validated : value) :
  ItinerarySchema data = Some validated →
  ItinerarySchema validated = Some validated.
Proof.
  unfold ItinerarySchema, z_object.
  destruct data as [| | | | | |members| |]; try done. simpl.
  destruct (z_enum ["completed"; "processing"; "failed"]
              (member "status" members)) as [o1|] eqn:H1; [|done].
  destruct (z_string (member "destination" members)) as [o2|] eqn:H2; [|done].
  destruct (z_number (member "durationDays" members)) as [o3|] eqn:H3; [|done].
  destruct (z_nullable z_any (member "completedAt" members))
    as [o5|] eqn:H5; [|done].
  destruct (z_array DaySchema (member "itinerary" members))
    as [o6|] eqn:H6; [|done].
  destruct (z_nullable z_string (member "error" members))
    as [o7|] eqn:H7; [|done].
  simpl. intros [= <-]. simpl.
  assert (z_enum ["completed"; "processing"; "failed"] o1 = Some o1) as ->.
  { revert H1. unfold z_enum. destruct (member "status" members); try done.
    destruct (bool_decide _) eqn:Hin; [|done]. intros [= <-]. by rewrite Hin. }
  apply z_string_inv in H2 as (s & _ & ->).
  apply z_number_inv in H3 as (n & _ & -> & Hn).
  assert (z_number (VNum n) = Some (VNum n)) as ->.
  { destruct n; simpl in *; [done| |done]. by rewrite Hn. }
  assert (z_nullable z_any o5 = Some o5) as ->.
  { revert H5. unfold z_nullable, z_any.
    destruct (member "completedAt" members); intros [= <-]; done. }
  assert (z_array DaySchema o6 = Some o6) as ->.
  { apply itinerary_validated in H6 as (_ & days & -> & Hdays).
    simpl. by rewrite (days_valid _ Hdays). }
  assert (z_nullable z_string o7 = Some o7) as ->.
  { revert H7. unfold z_nullable.
    destruct (member "error" members) as [| | | |text| | | |]; try done;
      by intros [= <-]. }
  done.
Qed.



(** ** Further properties of the model call *)





Lemma units_of_cases c :
  units_of c = 0%nat ∨ units_of c = 1%nat ∨ units_of c = 2%nat.
Proof. unfold units_of. repeat case_match; auto. Qed.

Lemma js_length_append s t :
  js_length (s +:+ t) = (js_length s + js_length t)%nat.
Proof.
  induction s as [|c s IH]; [done|].
  change (String c s +:+ t) with (String c (s +:+ t)). simpl. rewrite IH. lia.
Qed.

(** A byte from [0x80] to [0xBF] continues a character. *)
Lemma units_of_continuation n :
  (128 <= n < 192)%N → units_of (ascii_of_N n) = 0%nat.
Proof.
  intros Hn. unfold units_of. rewrite N_ascii_embedding by lia.
  destruct (N.ltb_spec n 128); [lia|]. destruct (N.ltb_spec n 192); [done|lia].
Qed.

(** Half a surrogate pair is one code unit. *)
Lemma js_length_high_surrogate c rest :
  (js_length (high_surrogate c rest) ≤ 1)%nat.
Proof.
  unfold high_surrogate. destruct rest as [|c1 [|c2 rest]]; simpl; try lia.
  set (uuuuu := (N_of_ascii c mod 8 * 4 + N_of_ascii c1 / 16 mod 4)%N).
  assert (((uuuuu - 1) mod 16 < 16)%N) by by apply N.mod_upper_bound.
  assert ((N_of_ascii c1 mod 16 < 16)%N) by by apply N.mod_upper_bound.
  assert (((N_of_ascii c2 / 16) mod 4 < 4)%N) by by apply N.mod_upper_bound.
  set (wwww := ((uuuuu - 1) mod 16)%N) in *.
  set (zzzz := (N_of_ascii c1 mod 16)%N) in *.
  set (yy := ((N_of_ascii c2 / 16) mod 4)%N) in *.
  clearbody wwww zzzz yy.
  rewrite !units_of_continuation by lia. lia.
Qed.

(** [substring(0, n)] has [n] code units at most, and is the whole string
    when that has no more. *)
Lemma js_length_substring_0 s : ∀ n, (js_length (substring_0 n s) ≤ n)%nat.
Proof.
  induction s as [|c s IH]; intros n; simpl; [lia|].
  destruct (units_of_cases c) as [Hc|[Hc|Hc]]; rewrite Hc.
  - simpl. rewrite Hc. apply IH.
  - destruct n as [|n]; simpl; [lia|]. rewrite Hc. specialize (IH n). lia.
  - destruct n as [|[|n]]; simpl; [lia|apply js_length_high_surrogate|].
    rewrite Hc. specialize (IH n). lia.
Qed.

Lemma substring_0_all s : ∀ n, (js_length s ≤ n)%nat → substring_0 n s = s.
Proof.
  induction s as [|c s IH]; intros n; simpl; [done|].
  destruct (units_of_cases c) as [Hc|[Hc|Hc]]; rewrite Hc; simpl; intros Hn.
  - by rewrite IH.
  - destruct n as [|n]; [lia|]. rewrite IH; [done|lia].
  - destruct n as [|[|n]]; [lia..|]. rewrite IH; [done|lia].
Qed.

(** What an attempt throws when the service refuses the request with a
    JSON object: the status and the [message] of its [error], or
    [Unknown error] when there is none; when the body is [null] the error
    is the TypeError of reading [error]. *)
Theorem refused_request_message (code : Z) (body : value) :
  let answer := Ok {| ok := false; http_status := code; json := Ok body |} in
  (∀ members text,
     body = VObj members →
     get_optional (member "error" members) "message" = VStr text →
     text ≠ "" →
     attempt_body answer
     = Throw (mkError ("OpenAI API error: " +:+ Number_toString (of_Z code)
                       +:+ " - " +:+ text)))
  ∧ (∀ members,
       body = VObj members →
       truthy (get_optional (member "error" members) "message") = false →
       attempt_body answer
       = Throw (mkError ("OpenAI API error: " +:+ Number_toString (of_Z code)
                         +:+ " - Unknown error")))
  ∧ (body = VNull →
     attempt_body answer = Throw (TypeError_read VNull "error")).
Proof.
  intros answer. subst answer. unfold attempt_body. simpl. split_and!.
  - intros members text -> Hmessage Htext. simpl.
    by rewrite Hmessage, (truthy_string _ Htext).
  - intros members -> Hfalsy. simpl. by rewrite Hfalsy.
  - by intros ->.
Qed.

(** An answer without content: with an empty [choices] array, or a first
    choice without a [message] or with an empty [content], the attempt
    throws [No content received from OpenAI]; without [choices] at all it
    throws the TypeError of reading index 0. *)
Theorem answer_without_content (code : Z) (members : list (string * value)) :
  let answer := Ok {| ok := true; http_status := code;
                      json := Ok (VObj members) |} in
  (∀ choices,
     member "choices" members = VArr choices →
     truthy (get_optional (get_optional (hd VUndefined choices) "message")
               "content") = false →
     attempt_body answer = Throw (mkError "No content received from OpenAI"))
  ∧ (member "choices" members = VArr [] →
     attempt_body answer = Throw (mkError "No content received from OpenAI"))
  ∧ (has_member "choices" members = false →
     attempt_body answer = Throw (TypeError_read VUndefined "0")).
Proof.
  intros answer. subst answer. unfold attempt_body. simpl. split_and!.
  - intros choices -> Hfalsy. simpl. by rewrite Hfalsy.
  - by intros ->.
  - intros Habsent. by rewrite (member_absent _ _ Habsent).
Qed.

(** A content that is a string but no JSON: the attempt throws an error
    that quotes the first 200 code units of the content, all of it when it
    has no more, so that its message is never longer than 238 code units. *)
Theorem unparsable_content_is_quoted_in_part (code : Z)
    (members : list (string * value)) (choices : list value)
    (content : string) (e : Error) :
  member "choices" members = VArr choices →
  get_optional (get_optional (hd VUndefined choices) "message") "content"
  = VStr content →
  content ≠ "" →
  JSON_parse content = Throw e →
  ∃ thrown,
    attempt_body (Ok {| ok := true; http_status := code;
                        json := Ok (VObj members) |}) = Throw thrown
    ∧ message thrown
      = "Invalid JSON response from OpenAI: " +:+ substring_0 200 content +:+ "..."
    ∧ (js_length (substring_0 200 content) ≤ 200)%nat
    ∧ (js_length (message thrown) ≤ 238)%nat
    ∧ ((js_length content ≤ 200)%nat →
       message thrown = "Invalid JSON response from OpenAI: " +:+ content +:+ "...").
Proof.
  intros Hchoices Hcontent Hnonempty Hparse. eexists. split_and!.
  - unfold attempt_body. simpl. rewrite Hchoices. simpl.
    rewrite Hcontent, (truthy_string _ Hnonempty). simpl. by rewrite Hparse.
  - done.
  - apply js_length_substring_0.
  - simpl message. rewrite !js_length_append.
    pose proof (js_length_substring_0 content 200).
    change (js_length "Invalid JSON response from OpenAI: ") with 35%nat.
    change (js_length "...") with 3%nat. lia.
  - intros Hshort. simpl message. by rewrite substring_0_all.
Qed.

(** ** The worker as a system, further *)

(** A run is over after three stages at most, and resumed stage after
    stage with nothing in between it leaves the store [processItinerary]
    leaves. *)
Theorem run_is_three_stages (stages : nat) (w : PipelineWorld) (job : Job)
    (db : Store) :
  (3 ≤ stages)%nat →
  drain stages w {| task_job := job; task_stage := Scheduled |} db
  = (processItinerary w (job_id job) (job_destination job)
       (job_durationDays job) db).1.1.
Proof.
  intros Hstages.
  destruct stages as [|[|[|stages]]]; try lia.
  rewrite <- drain_processItinerary.
  unfold drain, resume. simpl.
  destruct (pipeline_firestore w) as [[]|]; [|done].
  destruct (doc_update db (job_id job) processing_fields (processing_call w))
    as [db1|e]; simpl; [|done].
  destruct (generate w (job_destination job) (job_durationDays job)).2
    as [validatedData|e]; simpl; [|done].
  by destruct (doc_update db1 (job_id job) (members_of validatedData)
                 (completed_call w)).
Qed.

Lemma resume_store w t (db db' : Store) next :
  resume w t db = (db', next) →
  db' = db
  ∨ ∃ record data call,
      db !! job_id (task_job t) = Some record
      ∧ db' = <[job_id (task_job t) := fields_of call data ∪ record]> db
      ∧ (data = processing_fields
         ∨ (∃ e, data = failed_fields e)
         ∨ ∃ destination durationDays days,
             data = members_of (itineraryData destination durationDays
                                  (VArr days))
             ∧ Forall DayRecord days).
Proof.
  unfold resume, catch_block.
  destruct (task_stage t) as [| |e].
  - destruct (pipeline_firestore w) as [[]|]; [|intros [= <- <-]; by left].
    destruct (doc_update db _ processing_fields (processing_call w))
      as [db1|e] eqn:Hfirst; intros [= <- <-]; [|by left].
    apply doc_update_inv in Hfirst as (record & Hrecord & ->).
    right. exists record, processing_fields, (processing_call w). auto.
  - destruct (generate w _ _).2 as [validatedData|e] eqn:Hgen;
      [|intros [= <- <-]; by left].
    destruct (doc_update db _ (members_of validatedData) (completed_call w))
      as [db2|e] eqn:Hlast; intros [= <- <-]; [|by left].
    apply doc_update_inv in Hlast as (record & Hrecord & ->).
    apply generate_ok in Hgen
      as (prompt & aiResponse & raw & out & _ & _ & _ & Hout & ->).
    apply itinerary_validated in Hout as (_ & days & -> & Hdays).
    right. eexists record, _, (completed_call w).
    split_and!; [done..|]. right. right. eauto.
  - destruct (doc_update db _ (failed_fields e) (failed_call w))
      as [db2|e'] eqn:Hcatch; simpl; intros [= <- <-]; [|by left].
    apply doc_update_inv in Hcatch as (record & Hrecord & ->).
    right. exists record, (failed_fields e), (failed_call w).
    split_and!; [done..|]. right. left. by exists e.
Qed.

Lemma step_store input sys :
  store (step input sys) = store sys
  ∨ (∃ id call destination durationDays,
       store (step input sys)
       = <[id := fields_of call (initial_fields destination durationDays)]>
           (store sys))
  ∨ ∃ id record data call,
      store sys !! id = Some record
      ∧ store (step input sys) = <[id := fields_of call data ∪ record]> (store sys)
      ∧ (data = processing_fields
         ∨ (∃ e, data = failed_fields e)
         ∨ ∃ destination durationDays days,
             data = members_of (itineraryData destination durationDays
                                  (VArr days))
             ∧ Forall DayRecord days).
Proof.
  destruct input as [request w|i w]; simpl.
  - destruct (fetch request w (store sys)) as [[response db'] scheduled]
      eqn:Hfetch. simpl. destruct scheduled as [job|].
    + apply fetch_schedules in Hfetch
        as (body & q & _ & _ & _ & _ & _ & _ & _ & _ & _ & -> & _).
      right. left. eauto.
    + apply fetch_without_job in Hfetch as ->. by left.
  - destruct (tasks sys !! i) as [t|]; [|by left].
    destruct (resume w t (store sys)) as [db' next] eqn:Hresume. simpl.
    apply resume_store in Hresume as [->|(record & data & call & ? & -> & ?)];
      [by left|].
    right. right. by exists (job_id (task_job t)), record, data, call.
Qed.

(** The worker never deletes a record: a record that exists still exists
    after any requests and any stages of any runs. *)
Theorem records_are_never_deleted (inputs : list Input) (sys : System)
    (j : string) :
  is_Some (store sys !! j) → is_Some (store (run inputs sys) !! j).
Proof.
  revert sys. induction inputs as [|input inputs IH]; intros sys Hj; [done|].
  apply (IH (step input sys)).
  destruct (step_store input sys)
    as [->|[(id & call & d & n & ->)|(id & record & data & call & _ & -> & _)]];
    [done|..]; destruct (decide (id = j)) as [->|Hne];
    rewrite ?lookup_insert_eq, ?lookup_insert_ne by done; by eauto.
Qed.

Lemma written_record_well_formed call data (record : gmap string value) :
  well_formed_record record →
  data = processing_fields
  ∨ (∃ e, data = failed_fields e)
  ∨ (∃ destination durationDays days,
       data = members_of (itineraryData destination durationDays (VArr days))
       ∧ Forall DayRecord days) →
  well_formed_record (fields_of call data ∪ record).
Proof.
  intros ((s & Hstatus & Hs) & (days & Hitinerary & Hdays) & Herror)
    [->|[[e ->]|(destination & durationDays & days' & -> & Hdays')]];
    unfold well_formed_record; rewrite !updated_lookup; simpl.
  - split_and!; [|by exists days|done].
    exists "processing". split; [done|listed].
  - split_and!; [|by exists days|right; by eexists].
    exists "failed". split; [done|listed].
  - split_and!; [|by exists days'|by left].
    exists "completed". split; [done|listed].
Qed.

(** Every record the worker writes is well formed: if every record of the
    store has a status of the three, an itinerary that is an array of day
    records and an error that is null or a string, so has every record
    after any requests and any stages of any runs, reused identifiers or
    not. *)
Theorem records_stay_well_formed (inputs : list Input) (sys : System) :
  (∀ j record, store sys !! j = Some record → well_formed_record record) →
  ∀ j record,
    store (run inputs sys) !! j = Some record → well_formed_record record.
Proof.
  revert sys. induction inputs as [|input inputs IH]; intros sys Hsys; [done|].
  apply (IH (step input sys)). intros j record.
  destruct (step_store input sys)
    as [->|[(id & call & d & n & ->)|(id & old & data & call & Hold & -> & Hdata)]];
    [apply Hsys|..]; destruct (decide (id = j)) as [->|Hne];
    rewrite ?lookup_insert_eq, ?lookup_insert_ne by done; try apply Hsys.
  - intros [= <-]. unfold well_formed_record. rewrite !fields_of_lookup. simpl.
    split_and!; [|by exists []|by left].
    exists "processing". split; [done|listed].
  - intros [= <-]. apply written_record_well_formed; [by eapply Hsys|done].
Qed.

(** ** The callers *)

Lemma check_once_true answer :
  check_once answer = Return true →
  ∃ data, answer = Ok (200%Z, data)
          ∧ get data "status" = Ok (VStr "completed").
Proof.
  unfold check_once. destruct answer as [[code data]|]; simpl; [|done].
  destruct (Z.eqb_spec code 200) as [->|]; [|done].
  destruct (get data "status") as [state|] eqn:Hstate; simpl; [|done].
  destruct (to_primitive state); simpl; [|done].
  destruct (is_string state "completed") eqn:Hcompleted.
  - intros _. exists data. split; [done|].
    destruct state as [| | | |s| | | |]; try done.
    by apply String.eqb_eq in Hcompleted as ->.
  - destruct (is_string state "failed").
    + destruct (get data "error") as [error|]; simpl; [|done].
      by destruct (if truthy error then to_primitive error else Ok ()).
    + by destruct (is_string state "processing").
Qed.

Lemma check_once_processing data :
  get data "status" = Ok (VStr "processing") →
  check_once (Ok (200%Z, data)) = Again (Some 3000%Z).
Proof. intros Hstate. unfold check_once. simpl. by rewrite Hstate. Qed.

Lemma check_loop_calls answers :
  ∀ remaining attempts,
    (calls (check_loop answers attempts remaining).1 ≤ remaining)%nat.
Proof.
  unfold calls.
  induction remaining as [|remaining IH]; intros attempts; simpl; [lia|].
  destruct (check_once (answers attempts)) as [result|delay]; simpl; [lia|].
  specialize (IH (S attempts)).
  destruct (check_loop answers (S attempts) remaining) as [events result].
  destruct delay; simpl in *; rewrite ?filter_cons_False by done; lia.
Qed.

Lemma check_loop_true answers :
  ∀ remaining attempts,
    (check_loop answers attempts remaining).2 = true →
    ∃ k, (attempts ≤ k < attempts + remaining)%nat
         ∧ check_once (answers k) = Return true.
Proof.
  induction remaining as [|remaining IH]; intros attempts; simpl; [done|].
  destruct (check_once (answers attempts)) as [result|delay] eqn:Honce; simpl.
  - intros ->. exists attempts. split; [lia|done].
  - specialize (IH (S attempts)).
    destruct (check_loop answers (S attempts) remaining) as [events result].
    simpl in *. intros Htrue. destruct (IH Htrue) as (k & Hk & Hreturn).
    exists k. split; [lia|done].
Qed.

Lemma check_loop_processing answers :
  ∀ remaining attempts,
    (∀ i, (attempts ≤ i < attempts + remaining)%nat →
          check_once (answers i) = Again (Some 3000%Z)) →
    check_loop answers attempts remaining
    = (flat_map (λ i, [Called i; Slept 3000]) (seq attempts remaining), false).
Proof.
  induction remaining as [|remaining IH]; intros attempts Hall; [done|].
  simpl. rewrite Hall by lia. rewrite (IH (S attempts)); [done|].
  intros i Hi. apply Hall. lia.
Qed.

(** The status check of the test script polls at most ten times; it reports
    success only if one of these polls was answered 200 with the status
    [completed]; and when all ten polls find the job [processing], it gives
    up with a failure after 32 seconds of waiting. *)
Theorem status_check_gives_up_after_ten_polls
    (answers : nat → outcome (Z * value)) :
  (calls (testStatusCheck answers).1 ≤ 10)%nat
  ∧ ((testStatusCheck answers).2 = true →
     ∃ k data, (k < 10)%nat ∧ answers k = Ok (200%Z, data)
               ∧ get data "status" = Ok (VStr "completed"))
  ∧ ((∀ k, (k < 10)%nat →
           ∃ data, answers k = Ok (200%Z, data)
                   ∧ get data "status" = Ok (VStr "processing")) →
     (testStatusCheck answers).2 = false
     ∧ calls (testStatusCheck answers).1 = 10%nat
     ∧ total_delay (testStatusCheck answers).1 = 32000%Z).
Proof.
  unfold testStatusCheck, maxAttempts. split_and!.
  - pose proof (check_loop_calls answers 10 0) as Hcalls.
    destruct (check_loop answers 0 10) as [events result]. simpl in *.
    unfold calls in *. by rewrite filter_cons_False.
  - pose proof (check_loop_true answers 10 0) as Htrue.
    destruct (check_loop answers 0 10) as [events result]. simpl in *.
    intros Hresult. destruct (Htrue Hresult) as (k & Hk & Hreturn).
    apply check_once_true in Hreturn as (data & Hanswer & Hdata).
    exists k, data. split; [lia|done].
  - intros Hall. rewrite check_loop_processing; [by vm_compute|].
    intros i Hi. destruct (Hall i) as (data & -> & Hdata); [lia|].
    by apply check_once_processing.
Qed.

(** The status page cannot print a time it received: for a value of a JSON
    text [formatTimestamp] returns [N/A] when the value is falsy and throws
    otherwise, since no such value has a [toDate] method; only a timestamp
    object of the store's library is printed. *)
Theorem formatTimestamp_needs_a_timestamp_object (toLocaleString : Z → string)
    (timestamp : value) :
  (is_json timestamp = true →
   formatTimestamp toLocaleString timestamp
   = if truthy timestamp
     then Throw (TypeError_not_a_function "timestamp.toDate")
     else Ok "N/A")
  ∧ (∀ t, timestamp = VTimestamp t →
       formatTimestamp toLocaleString timestamp = Ok (toLocaleString t)).
Proof.
  split; [|by intros t ->].
  intros Hjson. unfold formatTimestamp.
  destruct timestamp; try done; by destruct (truthy _).
Qed.

End Properties.

(** * Examples *)

#[local] Existing Instance Sample.host.

Import Sample.

(** C1, counterexample: three failed attempts are followed by two delays, of
    2 and 4 seconds; no delay of 8 seconds is awaited before giving up. *)
Lemma three_failures_two_delays :
  delays (callOpenAI overloaded "prompt" default_retries).1 = [2000; 4000]%Z
  ∧ delays (callOpenAI overloaded "prompt" default_retries).1
    ≠ [2000; 4000; 8000]%Z.
Proof. split; [reflexivity|discriminate]. Qed.

Lemma callOpenAI_retry_policy_witness :
  callOpenAI overloaded "prompt" default_retries
  = ([Called 1; Slept 2000; Called 2; Slept 4000; Called 3],
     Throw (mkError "OpenAI API error: 503 - overloaded"))
  ∧ callOpenAI second_time_lucky "prompt" default_retries
    = ([Called 1; Slept 2000; Called 2], Ok (VObj [("itinerary", VArr [])])).
Proof.
  split.
  - apply (callOpenAI_retry_policy overloaded "prompt").
    + intros i Hi. eexists. reflexivity.
    + reflexivity.
  - apply (proj1 (proj2 (callOpenAI_retry_policy second_time_lucky "prompt"))
             2%nat (VObj [("itinerary", VArr [])])).
    + lia.
    + intros i Hi. assert (i = 1%nat) as -> by lia. eexists. reflexivity.
    + reflexivity.
Defined.



(** C3, counterexample: a second request that arrives in the same
    millisecond and draws the same random number is given the identifier
    of the first; its record replaces the completed one, and the status is
    [processing] again. *)
Lemma reused_identifier_reopens_job :
  field (store (run (one_job second_time_lucky) start)) first_id "status"
  = Some (VStr "completed")
  ∧ field (store (run (one_job second_time_lucky
                       ++ [Arrives (post (trip (of_Z 5))) router_world])
                   start)) first_id "status"
    = Some (VStr "processing").
Proof. vm_compute. split; reflexivity. Qed.

Lemma terminal_records_are_final_witness :
  field (store (run (one_job second_time_lucky
                     ++ [Arrives (post (trip (of_Z 5))) a_millisecond_later;
                         Resumes 0 (pipeline_world overloaded)])
                 start)) first_id "status"
  = Some (VStr "completed").
Proof.
  unfold field, start.
  rewrite (terminal_records_are_final ∅ (one_job second_time_lucky)
             [Arrives (post (trip (of_Z 5))) a_millisecond_later;
              Resumes 0 (pipeline_world overloaded)]
             first_id
             (default ∅ (store (run (one_job second_time_lucky)
                                    {| store := ∅; tasks := [] |})
                         !! first_id))).
  - vm_compute. reflexivity.
  - vm_compute. reflexivity.
  - vm_compute. reflexivity.
  - left. vm_compute. reflexivity.
Defined.

Lemma sample_host_speaks : host_speaks.
Proof.
  split_and!.
  - intros v k Hempty. discriminate Hempty.
  - intros [|c what] Hempty; discriminate Hempty.
  - intros Hempty. discriminate Hempty.
  - intros v Hempty. discriminate Hempty.
  - intros id Hempty. discriminate Hempty.
Qed.

Lemma overloaded_world_speaks : world_speaks (pipeline_world overloaded).
Proof.
  split_and!.
  - intros e Hfault. discriminate Hfault.
  - intros e Hfault. discriminate Hfault.
  - intros prompt attempt e Hthrows. discriminate Hthrows.
  - intros prompt attempt response e Hresponse Hjson.
    injection Hresponse as <-. discriminate Hjson.
Qed.

(** C4, counterexample: two requests are given the same identifier; the
    run of the first stores an itinerary of one day, and the run of the
    second then fails: the record is [failed] and its itinerary is not
    empty. *)
Lemma reused_identifier_fails_with_itinerary :
  let record :=
    default ∅ (store (run two_jobs_one_identifier start) !! first_id) in
  record !! "status" = Some (VStr "failed")
  ∧ record !! "error" = Some (VStr "OpenAI API error: 503 - overloaded")
  ∧ record !! "itinerary" = Some (VArr [bare_day])
  ∧ record !! "itinerary" ≠ Some (VArr []).
Proof. vm_compute. split_and!; (reflexivity || discriminate). Qed.

Lemma failed_job_record_witness :
  (let db1 := (fetch (post (trip (of_Z 3))) router_world ∅).1.2 in
   let db2 := (processItinerary (pipeline_world overloaded) first_id
                 (VStr "Tokyo, Japan") (VNum (of_Z 3)) db1).1.1 in
   field db2 first_id "error"
   = Some (VStr "OpenAI API error: 503 - overloaded")
   ∧ field db2 first_id "completedAt" = Some (VTimestamp 3000)
   ∧ field db2 first_id "itinerary" = Some (VArr []))
  ∧ ∃ text t,
      let record :=
        default ∅ (store (run one_failing_job start) !! first_id) in
      record !! "error" = Some (VStr text)
      ∧ record !! "completedAt" = Some (VTimestamp t)
      ∧ record !! "itinerary" = Some (VArr [])
      ∧ text ≠ "".
Proof.
  destruct failed_job_record as [Hrun Hsystem]. split.
  - intros db1 db2.
    destruct (Hrun (post (trip (of_Z 3))) router_world ∅ db1
                (fetch (post (trip (of_Z 3))) router_world ∅).1.1
                {| job_id := first_id; job_destination := VStr "Tokyo, Japan";
                   job_durationDays := VNum (of_Z 3) |}
                (pipeline_world overloaded))
      as (e & Hthrown & Herror & Htime & Hitinerary & _).
    + vm_compute. reflexivity.
    + vm_compute. reflexivity.
    + vm_compute in Hthrown. injection Hthrown as <-.
      split_and!; [exact Herror|exact Htime|exact Hitinerary].
  - destruct (Hsystem ∅ one_failing_job first_id
                (default ∅ (store (run one_failing_job start) !! first_id)))
      as (text & t & Herror & Htime & Hitinerary & Hmessage).
    + vm_compute. reflexivity.
    + apply lookup_empty.
    + vm_compute. reflexivity.
    + vm_compute. reflexivity.
    + exists text, t.
      split_and!; [exact Herror|exact Htime|exact Hitinerary|].
      apply Hmessage. split; [exact sample_host_speaks|].
      intros i w Hin.
      assert (w = pipeline_world overloaded) as ->.
      { unfold one_failing_job, one_job in Hin. simpl in Hin.
        apply elem_of_cons in Hin as [Hin|Hin]; [discriminate Hin|].
        apply elem_of_cons in Hin as [Hin|Hin]; [by injection Hin as _ ->|].
        apply elem_of_cons in Hin as [Hin|Hin]; [by injection Hin as _ ->|].
        apply elem_of_cons in Hin as [Hin|Hin]; [by injection Hin as _ ->|].
        exfalso. exact (proj1 (elem_of_nil _) Hin). }
      exact overloaded_world_speaks.
Defined.

Lemma generate_validates_input_witness :
  status (fetch (post (trip (of_Z 0))) router_world ∅).1.1 = 400%Z
  ∧ status (fetch (post (VObj [("durationDays", VNum (of_Z 3))]))
              router_world ∅).1.1 = 400%Z
  ∧ status (fetch (post (trip (of_Z 3))) router_world ∅).1.1 = 202%Z.
Proof.
  split_and!.
  - apply (proj1 (generate_validates_input router_world ∅
                    [("destination", VStr "Tokyo, Japan");
                     ("durationDays", VNum (of_Z 0))])).
    reflexivity.
  - apply (proj1 (proj2 (proj2 (proj2
             (generate_validates_input router_world ∅
                [("durationDays", VNum (of_Z 3))]))))).
    reflexivity.
  - apply (proj2 (proj2 (proj2 (proj2
             (generate_validates_input router_world ∅
                [("destination", VStr "Tokyo, Japan");
                 ("durationDays", VNum (of_Z 3))]))))
             "Tokyo, Japan" (inject_Z 3)).
    + reflexivity.
    + discriminate.
    + reflexivity.
    + discriminate.
    + discriminate.
    + split; reflexivity.
Defined.

Lemma status_reads_the_record_witness :
  fetch (poll "/status/") router_world ∅
  = (error_response 400 "Job ID is required", ∅, None)
  ∧ fetch (poll "/status/job_7") router_world ∅
    = (error_response 404 "Job not found", ∅, None).
Proof.
  split.
  - apply (proj1 (status_reads_the_record (poll "/status/") router_world ∅
                    eq_refl) "").
    + reflexivity.
    + left. reflexivity.
  - etrans.
    + apply (proj2 (status_reads_the_record (poll "/status/job_7")
                      router_world ∅ eq_refl) "job_7" "").
      * reflexivity.
      * reflexivity.
      * discriminate.
      * left. reflexivity.
      * split; reflexivity.
    + reflexivity.
Defined.

(** C7, counterexample: a request for two days and a half is accepted, and
    the record stores 5/2, which is no integer. *)
Lemma fractional_duration_accepted :
  let answer := fetch (post (trip (Finite (5 # 2)))) router_world ∅ in
  status answer.1.1 = 202%Z
  ∧ field answer.1.2 first_id "durationDays" = Some (VNum (Finite (5 # 2)))
  ∧ ¬ ∃ z : Z, (5 # 2 == inject_Z z)%Q.
Proof.
  split_and!; [reflexivity|vm_compute; reflexivity|].
  intros [z Hz]. unfold Qeq in Hz. simpl in Hz. lia.
Qed.

Lemma persisted_duration_in_range_witness :
  (∃ q, (1 <= q)%Q ∧ (q <= 30)%Q
        ∧ get (trip (Finite (5 # 2))) "durationDays" = Ok (VNum (Finite q))
        ∧ field (fetch (post (trip (Finite (5 # 2)))) router_world ∅).1.2
            first_id "durationDays" = Some (VNum (Finite q)))
  ∧ status (fetch (post (trip (of_Z 31))) router_world ∅).1.1 = 400%Z.
Proof.
  split.
  - destruct (persisted_duration_in_range
                (post (trip (Finite (5 # 2)))) router_world ∅
                (fetch (post (trip (Finite (5 # 2)))) router_world ∅).1.2
                (fetch (post (trip (Finite (5 # 2)))) router_world ∅).1.1
                (Some {| job_id := first_id;
                         job_destination := VStr "Tokyo, Japan";
                         job_durationDays := VNum (Finite (5 # 2)) |}))
      as [(body & q & Hbody & Hget & Hlo & Hhi & _ & Hstored & _) _].
    + vm_compute. reflexivity.
    + injection Hbody as <-. exists q.
      split_and!; [exact Hlo|exact Hhi|exact Hget|exact Hstored].
  - destruct (persisted_duration_in_range
                (post (trip (of_Z 31))) router_world ∅ ∅
                (fetch (post (trip (of_Z 31))) router_world ∅).1.1 None)
      as [_ Hrefused].
    + reflexivity.
    + destruct (Hrefused (trip (of_Z 31)) eq_refl) as (_ & _ & Hstatus).
      * intros q Hq [_ Hhi]. injection Hq as <-. exact (Hhi eq_refl).
      * apply (Hstatus _ eq_refl); reflexivity.
Defined.

(** C8: the record of a job created at time 1000 and completed at time
    2000 has [createdAt] 2000 afterwards; the write of the result replaces
    the time of creation by its own. *)
Theorem createdAt_overwritten_on_completion :
  let db1 := (fetch (post (trip (of_Z 3))) router_world ∅).1.2 in
  let db2 := (processItinerary (pipeline_world second_time_lucky) first_id
                (VStr "Tokyo, Japan") (VNum (of_Z 3)) db1).1.1 in
  field db1 first_id "createdAt" = Some (VTimestamp 1000)
  ∧ field db2 first_id "status" = Some (VStr "completed")
  ∧ field db2 first_id "createdAt" = Some (VTimestamp 2000)
  ∧ field db2 first_id "completedAt" = Some (VTimestamp 2000).
Proof. vm_compute. split_and!; reflexivity. Qed.

(** C9, counterexample: when the store fails while the status handler
    fetches the record, the response is 500 with the body
    [{error: "Failed to fetch job status"}], which is not
    [{error: "Internal server error"}]. *)
Lemma status_failure_has_its_own_body :
  fetch (poll "/status/job_7") store_down ∅
  = (error_response 500 "Failed to fetch job status", ∅, None)
  ∧ body (fetch (poll "/status/job_7") store_down ∅).1.1
    ≠ json_value (VObj [("error", VStr "Internal server error")]).
Proof. split; [reflexivity|discriminate]. Qed.

Lemma router_failures_witness :
  fetch (post (trip (of_Z 3))) no_credential ∅
  = (error_response 500 "Internal server error", ∅, None)
  ∧ fetch (post (trip (of_Z 3))) store_down ∅
    = (error_response 500 "Internal server error", ∅, None)
  ∧ fetch (post VNull) router_world ∅
    = (error_response 500 "Internal server error", ∅, None)
  ∧ fetch (poll "/status/job_7") store_down ∅
    = (error_response 500 "Failed to fetch job status", ∅, None).
Proof.
  split_and!.
  - apply (proj1 (router_failures (post (trip (of_Z 3))) no_credential ∅));
      [reflexivity..|].
    right. right.
    exists [("destination", VStr "Tokyo, Japan"); ("durationDays", VNum (of_Z 3))],
           (inject_Z 3).
    split_and!; [reflexivity|reflexivity|reflexivity|discriminate|discriminate|].
    left. eexists. reflexivity.
  - apply (proj1 (router_failures (post (trip (of_Z 3))) store_down ∅));
      [reflexivity..|].
    right. right.
    exists [("destination", VStr "Tokyo, Japan"); ("durationDays", VNum (of_Z 3))],
           (inject_Z 3).
    split_and!; [reflexivity|reflexivity|reflexivity|discriminate|discriminate|].
    right. eexists. reflexivity.
  - apply (proj1 (router_failures (post VNull) router_world ∅));
      [reflexivity..|].
    right. left. left. reflexivity.
  - apply (proj1 (proj2 (router_failures (poll "/status/job_7") store_down ∅))
             "job_7").
    + reflexivity.
    + reflexivity.
    + reflexivity.
    + discriminate.
    + right. eexists. reflexivity.
Defined.

(** * Examples of the further properties *)

Import Cases.

Lemma every_response_allows_any_origin_witness :
  fetch {| method := "OPTIONS"; pathname := "/generate";
           request_json := Ok (trip (of_Z 3)) |} router_world ∅
  = ({| status := 200; headers := corsHeaders; body := no_body |}, ∅, None).
Proof.
  apply (every_response_allows_any_origin
           {| method := "OPTIONS"; pathname := "/generate";
              request_json := Ok (trip (of_Z 3)) |} router_world ∅).
  reflexivity.
Defined.

Lemma accepted_means_scheduled_witness :
  status (fetch (post (trip (of_Z 3))) router_world ∅).1.1 = 202%Z.
Proof.
  apply (accepted_means_scheduled (post (trip (of_Z 3))) router_world ∅).
  eexists. vm_compute. reflexivity.
Defined.

Lemma body_that_is_no_object_witness :
  fetch (post (VStr "Tokyo, Japan")) router_world ∅
  = (error_response 400
       "Missing required fields: destination and durationDays", ∅, None).
Proof.
  apply (body_that_is_no_object (VStr "Tokyo, Japan") router_world ∅).
  - reflexivity.
  - discriminate.
Defined.

Lemma fetch_writes_one_record_witness :
  (fetch (post (trip (of_Z 3))) router_world other_job).1.2 !! "job_0"
  = Some ∅.
Proof.
  etrans.
  - apply (fetch_writes_one_record (post (trip (of_Z 3))) router_world
             other_job "job_0").
    intros Hsame. vm_compute in Hsame. discriminate Hsame.
  - reflexivity.
Defined.

Lemma created_job_can_be_polled_witness :
  ∃ record,
    fetch {| method := "GET"; pathname := "/status/" +:+ first_id;
             request_json := Ok (trip (of_Z 3)) |} a_millisecond_later
      (fetch (post (trip (of_Z 3))) router_world ∅).1.2
    = (json_response 200 (json_document record),
       (fetch (post (trip (of_Z 3))) router_world ∅).1.2, None)
    ∧ record !! "status" = Some (VStr "processing").
Proof.
  destruct (created_job_can_be_polled
              (post (trip (of_Z 3))) router_world a_millisecond_later ∅
              (fetch (post (trip (of_Z 3))) router_world ∅).1.2
              (fetch (post (trip (of_Z 3))) router_world ∅).1.1
              {| job_id := first_id; job_destination := VStr "Tokyo, Japan";
                 job_durationDays := VNum (of_Z 3) |})
    as [_ (record & Hpoll & Hstatus & _)].
  - apply answer_with_job. vm_compute. reflexivity.
  - reflexivity.
  - split; reflexivity.
  - exists record. split; [exact Hpoll|exact Hstatus].
Defined.

Lemma run_without_record_witness :
  ∃ e, processItinerary (pipeline_world second_time_lucky) first_id
         (VStr "Tokyo, Japan") (VNum (of_Z 3)) ∅
       = (∅, [], Throw e).
Proof.
  apply (run_without_record (pipeline_world second_time_lucky) first_id
           (VStr "Tokyo, Japan") (VNum (of_Z 3)) ∅).
  reflexivity.
Defined.

Lemma run_writes_one_record_witness :
  (processItinerary (pipeline_world second_time_lucky) first_id
     (VStr "Tokyo, Japan") (VNum (of_Z 3))
     (fetch (post (trip (of_Z 3))) router_world other_job).1.2).1.1 !! "job_0"
  = (fetch (post (trip (of_Z 3))) router_world other_job).1.2 !! "job_0".
Proof.
  destruct (run_writes_one_record (pipeline_world second_time_lucky) first_id
              (VStr "Tokyo, Japan") (VNum (of_Z 3))
              (fetch (post (trip (of_Z 3))) router_world other_job).1.2 "job_0")
    as [Hother _].
  apply Hother. discriminate.
Defined.

Lemma run_calls_model_at_most_thrice_witness :
  (processItinerary no_store_client first_id (VStr "Tokyo, Japan")
     (VNum (of_Z 3)) other_job).1.2 = [].
Proof.
  destruct (run_calls_model_at_most_thrice no_store_client first_id
              (VStr "Tokyo, Japan") (VNum (of_Z 3)) other_job)
    as (_ & _ & Hnone).
  apply Hnone. left. eexists. reflexivity.
Defined.



Lemma day_records_are_the_valid_days_witness : DayRecord a_day_validated.
Proof.
  apply (day_records_are_the_valid_days a_day_validated). reflexivity.
Defined.

Lemma validation_is_idempotent_witness :
  ItinerarySchema
    (itineraryData (VStr "Tokyo, Japan") (VNum (of_Z 3)) (VArr [a_day_validated]))
  = Some (itineraryData (VStr "Tokyo, Japan") (VNum (of_Z 3))
            (VArr [a_day_validated])).
Proof.
  apply (validation_is_idempotent
           (itineraryData (VStr "Tokyo, Japan") (VNum (of_Z 3)) (VArr [a_day]))).
  reflexivity.
Defined.



Lemma refused_request_message_witness :
  attempt_body (refused 429 (VObj [("error", VObj [("message", VStr "slow down")])]))
  = Throw (mkError "OpenAI API error: 429 - slow down").
Proof.
  etrans.
  - apply (proj1 (refused_request_message 429
                    (VObj [("error", VObj [("message", VStr "slow down")])]))
             [("error", VObj [("message", VStr "slow down")])] "slow down").
    + reflexivity.
    + reflexivity.
    + discriminate.
  - reflexivity.
Defined.

Lemma answer_without_content_witness :
  attempt_body (Ok {| ok := true; http_status := 200;
                      json := Ok (VObj [("choices", VArr [])]) |})
  = Throw (mkError "No content received from OpenAI").
Proof.
  apply (proj1 (proj2 (answer_without_content 200 [("choices", VArr [])]))).
  reflexivity.
Defined.

Lemma unparsable_content_is_quoted_in_part_witness :
  ∃ thrown,
    attempt_body (answer_with accents) = Throw thrown
    ∧ message thrown
      = "Invalid JSON response from OpenAI: " +:+ times 200 "é" +:+ "..."
    ∧ js_length (message thrown) = 238%nat.
Proof.
  destruct (unparsable_content_is_quoted_in_part 200
              [("choices",
                VArr [VObj [("message", VObj [("content", VStr accents)])]])]
              [VObj [("message", VObj [("content", VStr accents)])]]
              accents (mkError "Unexpected token"))
    as (thrown & Hthrown & Hmessage & _).
  - reflexivity.
  - reflexivity.
  - intros Hempty. vm_compute in Hempty. discriminate Hempty.
  - vm_compute. reflexivity.
  - exists thrown. split_and!; [exact Hthrown| |].
    + etrans; [exact Hmessage|]. vm_compute. reflexivity.
    + rewrite Hmessage. vm_compute. reflexivity.
Defined.

Lemma run_is_three_stages_witness :
  drain 5 (pipeline_world second_time_lucky)
    {| task_job := {| job_id := first_id;
                      job_destination := VStr "Tokyo, Japan";
                      job_durationDays := VNum (of_Z 3) |};
       task_stage := Scheduled |} other_job
  = (processItinerary (pipeline_world second_time_lucky) first_id
       (VStr "Tokyo, Japan") (VNum (of_Z 3)) other_job).1.1.
Proof.
  apply (run_is_three_stages 5 (pipeline_world second_time_lucky)
           {| job_id := first_id; job_destination := VStr "Tokyo, Japan";
              job_durationDays := VNum (of_Z 3) |} other_job).
  lia.
Defined.

Lemma records_are_never_deleted_witness :
  is_Some (store (run (one_job overloaded)
                    {| store := other_job; tasks := [] |}) !! "job_0").
Proof.
  apply (records_are_never_deleted (one_job overloaded)
           {| store := other_job; tasks := [] |} "job_0").
  eexists. reflexivity.
Defined.

Lemma records_stay_well_formed_witness :
  well_formed_record
    (default ∅ (store (run (one_job second_time_lucky) start) !! first_id)).
Proof.
  apply (records_stay_well_formed (one_job second_time_lucky) start) with first_id.
  - intros j record Hrecord. unfold start in Hrecord. simpl in Hrecord.
    rewrite lookup_empty in Hrecord. discriminate Hrecord.
  - vm_compute. reflexivity.
Defined.

Lemma status_check_gives_up_after_ten_polls_witness :
  (testStatusCheck never_done).2 = false
  ∧ calls (testStatusCheck never_done).1 = 10%nat
  ∧ total_delay (testStatusCheck never_done).1 = 32000%Z.
Proof.
  apply (status_check_gives_up_after_ten_polls never_done).
  intros k Hk. eexists. split; reflexivity.
Defined.

Lemma formatTimestamp_needs_a_timestamp_object_witness :
  formatTimestamp (λ t, "1/1/1970, 12:16:40 AM") time_as_json
  = Throw (mkError "timestamp.toDate is not a function").
Proof.
  etrans.
  - apply (proj1 (formatTimestamp_needs_a_timestamp_object
                    (λ t, "1/1/1970, 12:16:40 AM") time_as_json)).
    reflexivity.
  - reflexivity.
Defined.
